(** * A shallow embedding of the Sudoku engine of [sudoku.py]

    The engine functions of [SudokuGame] ([is_safe],
    [find_empty_location], [solve_grid], [fill_grid], [remove_numbers],
    [generate_sudoku]) are embedded as executable Rocq functions.

    - A numpy array is a list of rows, each a list of integers; an index
      that numpy would reject raises [IndexError].
    - A function that receives an array and mutates it in place is a
      state transformer on the contents of that array.  Where several
      arrays are alive at once ([remove_numbers], [generate_sudoku]) the
      arrays live in a store and are named by references, so that
      [copy] yields a new object and a write through one reference is
      seen through every alias of it.
    - The module [random] is an oracle indexed by the number of draws
      made so far.
    - Recursion and the [while] loop are driven by a budget; running
      out of it raises [OutOfFuel]. *)

From Stdlib Require Import ZArith Lia String Sorted.
From stdpp Require Import base tactics option numbers list.

Local Open Scope Z_scope.
Local Open Scope nat_scope.

(** ** Results and exceptions *)

Inductive exn : Set :=
| IndexError          (* an array index out of bounds *)
| UnboundLocalError   (* a loop variable read although the loop never ran *)
| DanglingRef         (* a reference that names no object of the store *)
| OutOfFuel.          (* recursion or iteration budget exhausted *)

Inductive res (A : Type) : Type :=
| Ok (a : A)
| Raise (e : exn).
Arguments Ok {A} a.
Arguments Raise {A} e.

#[export] Instance res_ret : MRet res := fun A a => Ok a.
#[export] Instance res_bind : MBind res := fun A B k m =>
  match m with
  | Ok a => k a
  | Raise e => Raise e
  end.

Definition of_option {A} (o : option A) (e : exn) : res A :=
  match o with
  | Some a => Ok a
  | None => Raise e
  end.

(** ** Grids *)

Abbreviation grid := (list (list Z)).

(** [np.zeros((9, 9), dtype=int)] *)
Definition zeros : grid := replicate 9 (replicate 9 0%Z).

(** [grid[row][col]] *)
Definition get (g : grid) (row col : nat) : res Z :=
  r ← of_option (g !! row) IndexError;
  of_option (r !! col) IndexError.

(** [grid[row][col] = v] *)
Definition set (g : grid) (row col : nat) (v : Z) : res grid :=
  r ← of_option (g !! row) IndexError;
  _ ← of_option (r !! col) IndexError;
  Ok (<[row := <[col := v]> r]> g).

(** [number in xs] for a one-dimensional array *)
Definition mem (number : Z) (xs : list Z) : bool :=
  existsb (Z.eqb number) xs.

(** [grid[:, col]] *)
Definition column (g : grid) (col : nat) : res (list Z) :=
  of_option (mapM (fun r : list Z => r !! col) g) IndexError.

(** [grid[a:a+3, b:b+3]]; a slice never raises *)
Definition block (g : grid) (a b : nat) : grid :=
  (fun r : list Z => take 3 (drop b r)) <$> take 3 (drop a g).

(** [is_safe], lines 201-205.  [and] evaluates its operands from left to
    right and stops at the first false one; [number in] a
    two-dimensional array looks at every element. *)
Definition is_safe (g : grid) (row col : nat) (number : Z) : res bool :=
  r ← of_option (g !! row) IndexError;
  if mem number r then Ok false else
  c ← column g col;
  if mem number c then Ok false else
  Ok (negb (mem number (mjoin (block g (row - row mod 3) (col - col mod 3))))).

(** [find_empty_location], lines 207-213: the inner loop over [j] ... *)
Fixpoint find_empty_in_row (g : grid) (i : nat) (js : list nat)
  : res (option (nat * nat)) :=
  match js with
  | [] => Ok None
  | j :: js' =>
      v ← get g i j;
      if (v =? 0)%Z then Ok (Some (i, j)) else find_empty_in_row g i js'
  end.

(** ... and the outer loop over [i]. *)
Fixpoint find_empty_rows (g : grid) (rows : list nat) : res (option (nat * nat)) :=
  match rows with
  | [] => Ok None
  | i :: rows' =>
      found ← find_empty_in_row g i (seq 0 9);
      match found with
      | Some loc => Ok (Some loc)
      | None => find_empty_rows g rows'
      end
  end.

Definition find_empty_location (g : grid) : res (option (nat * nat)) :=
  find_empty_rows g (seq 0 9).

(** [solve_grid], lines 187-199.  [solve_numbers] is the loop
    [for number in range(1, 10)] for the cell [(row, col)]; [rec] is the
    recursive call. *)
Fixpoint solve_numbers (rec : grid → res (bool * grid)) (row col : nat)
    (numbers : list Z) (g : grid) : res (bool * grid) :=
  match numbers with
  | [] => Ok (false, g)
  | number :: rest =>
      safe ← is_safe g row col number;
      if safe : bool then
        g1 ← set g row col number;
        '(solved, g2) ← rec g1;
        if solved : bool then Ok (true, g2)
        else
          g3 ← set g2 row col 0%Z;
          solve_numbers rec row col rest g3
      else solve_numbers rec row col rest g
  end.

Fixpoint solve_grid (depth : nat) (g : grid) : res (bool * grid) :=
  match depth with
  | 0 => Raise OutOfFuel
  | S depth' =>
      location ← find_empty_location g;
      match location with
      | None => Ok (true, g)
      | Some (row, col) =>
          solve_numbers (solve_grid depth') row col (seqZ 1 9) g
      end
  end.

(** ** The random source

    [shuffle_at n xs] is the order in which [random.shuffle] leaves the
    list [xs] when it is the [n]-th draw of the run, and
    [randint_at n a b] is what [random.randint(a, b)] returns at the
    [n]-th draw.  The two laws are the contract of the library: a
    shuffle permutes, and [randint] stays within its bounds. *)
Record rng : Type := Rng {
  shuffle_at : nat → list Z → list Z;
  randint_at : nat → nat → nat → nat;
  shuffle_perm : ∀ n xs, shuffle_at n xs ≡ₚ xs;
  randint_range : ∀ n a b, a ≤ b → a ≤ randint_at n a b ≤ b
}.

(** ** Filling a grid

    [fill_grid], lines 167-185.  The state is the array and the number
    of draws made so far.  [fill_numbers] is the loop
    [for number in numbers] (lines 175-182). *)
Fixpoint fill_numbers (rec : grid → nat → res (bool * grid * nat))
    (row col : nat) (numbers : list Z) (g : grid) (t : nat)
  : res (bool * grid * nat) :=
  match numbers with
  | [] => Ok (false, g, t)
  | number :: rest =>
      safe ← is_safe g row col number;
      if safe : bool then
        g1 ← set g row col number;
        location ← find_empty_location g1;
        match location with
        | None => Ok (true, g1, t)
        | Some _ =>
            '(filled, g2, t2) ← rec g1 t;
            if filled : bool then Ok (true, g2, t2)
            else fill_numbers rec row col rest g2 t2
        end
      else fill_numbers rec row col rest g t
  end.

(** Lines 184-185, reached when the loop over [i] ends or is left by
    [break]: [rc] holds the loop variables [row] and [col], which are
    unbound as long as the loop body never ran. *)
Definition fill_reset (rc : option (nat * nat)) (g : grid) (t : nat)
  : res (bool * grid * nat) :=
  '(row, col) ← of_option rc UnboundLocalError;
  g' ← set g row col 0%Z;
  Ok (false, g', t).

(** The loop [for i in range(0, 81)] (lines 170-183). *)
Fixpoint fill_cells (R : rng) (rec : grid → nat → res (bool * grid * nat))
    (cells : list nat) (rc : option (nat * nat)) (numbers : list Z)
    (g : grid) (t : nat) : res (bool * grid * nat) :=
  match cells with
  | [] => fill_reset rc g t
  | i :: cells' =>
      let row := i / 9 in
      let col := i mod 9 in
      v ← get g row col;
      if (v =? 0)%Z then
        let numbers' := shuffle_at R t numbers in
        '(filled, g', t') ← fill_numbers rec row col numbers' g (S t);
        if filled : bool then Ok (true, g', t')
        else fill_reset (Some (row, col)) g' t'
      else fill_cells R rec cells' (Some (row, col)) numbers g t
  end.

Fixpoint fill_grid (R : rng) (depth : nat) (g : grid) (t : nat)
  : res (bool * grid * nat) :=
  match depth with
  | 0 => Raise OutOfFuel
  | S depth' =>
      fill_cells R (fill_grid R depth') (seq 0 81) None (seqZ 1 9) g t
  end.

(** ** The store

    Arrays are objects of a store; a reference is an index into it.
    [draws] counts the draws made from the random source. *)
Record world : Type := World { heap : list grid; draws : nat }.

Definition deref (w : world) (l : nat) : res grid :=
  of_option (heap w !! l) DanglingRef.

Definition assign (w : world) (l : nat) (g : grid) : world :=
  World (<[l := g]> (heap w)) (draws w).

(** A new object, as made by [np.zeros] and by [.copy()]. *)
Definition new_array (w : world) (g : grid) : nat * world :=
  (length (heap w), World (heap w ++ [g]) (draws w)).

(** [a.copy()] *)
Definition copy (w : world) (l : nat) : res (nat * world) :=
  g ← deref w l;
  Ok (new_array w g).

(** [a[row][col]] and [a[row][col] = v] through a reference *)
Definition load (w : world) (l row col : nat) : res Z :=
  g ← deref w l;
  get g row col.

Definition store (w : world) (l row col : nat) (v : Z) : res world :=
  g ← deref w l;
  g' ← set g row col v;
  Ok (assign w l g').

(** [random.randint(a, b)] *)
Definition randint (R : rng) (w : world) (a b : nat) : nat * world :=
  (randint_at R (draws w) a b, World (heap w) (S (draws w))).

(** [self.solve_grid(a)] and [self.fill_grid(a)] on the object that [a]
    refers to *)
Definition call_solve_grid (depth : nat) (w : world) (l : nat) : res (bool * world) :=
  g ← deref w l;
  '(solved, g') ← solve_grid depth g;
  Ok (solved, assign w l g').

Definition call_fill_grid (R : rng) (depth : nat) (w : world) (l : nat)
  : res (bool * world) :=
  g ← deref w l;
  '(filled, g', t') ← fill_grid R depth g (draws w);
  Ok (filled, World (<[l := g']> (heap w)) t').

(** ** Removing numbers

    [remove_numbers], lines 150-165.  [remove_loop] is the [while] loop;
    it returns the values of [count] and [attempts] at its exit together
    with the store. *)
Definition max_attempts : nat := 81 * 10.

(** One run of the loop body, lines 155-164. *)
Definition remove_attempt (R : rng) (depth : nat) (l : nat) (count : Z)
    (w : world) : res (Z * world) :=
  let '(row, w1) := randint R w 0 8 in
  let '(col, w2) := randint R w1 0 8 in
  v ← load w2 l row col;
  if negb (v =? 0)%Z then
    let backup := v in
    w3 ← store w2 l row col 0%Z;
    '(grid_copy, w4) ← copy w3 l;
    '(solved, w5) ← call_solve_grid depth w4 grid_copy;
    if solved : bool then Ok ((count - 1)%Z, w5)
    else
      w6 ← store w5 l row col backup;
      Ok (count, w6)
  else Ok (count, w2).

Fixpoint remove_loop (R : rng) (depth fuel : nat) (l : nat) (count : Z)
    (attempts : nat) (w : world) : res (Z * nat * world) :=
  if (0 <? count)%Z && (attempts <? max_attempts) then
    match fuel with
    | 0 => Raise OutOfFuel
    | S fuel' =>
        '(count', w') ← remove_attempt R depth l count w;
        remove_loop R depth fuel' l count' (attempts + 1) w'
    end
  else Ok (count, attempts, w).

Definition remove_numbers (R : rng) (depth fuel : nat) (l : nat) (count : Z)
    (w : world) : res (Z * nat * world) :=
  remove_loop R depth fuel l count 0 w.

(** ** Generating a puzzle

    [generate_sudoku], lines 136-148.  The result of [fill_grid] is not
    looked at.  The dictionary that is returned holds the two
    references. *)
Definition removal_target (difficulty : string) : Z :=
  if String.eqb difficulty "Easy" then 40%Z
  else if String.eqb difficulty "Medium" then 50%Z
  else 60%Z.

Record game_data : Type := GameData { puzzle : nat; solution : nat }.

Definition generate_sudoku (R : rng) (depth fuel : nat) (difficulty : string)
    (w : world) : res (game_data * world) :=
  let '(solution, w1) := new_array w zeros in
  '(_, w2) ← call_fill_grid R depth w1 solution;
  '(puzzle, w3) ← copy w2 solution;
  '(_, w4) ←
    (if String.eqb difficulty "Easy" then remove_numbers R depth fuel puzzle 40%Z w3
     else if String.eqb difficulty "Medium" then remove_numbers R depth fuel puzzle 50%Z w3
     else remove_numbers R depth fuel puzzle 60%Z w3);
  Ok (GameData puzzle solution, w4).

(** A random source that leaves every list as it is and always draws the
    lower bound. *)
Definition rng_low : rng :=
  {| shuffle_at := fun _ xs => xs;
     randint_at := fun _ a _ => a;
     shuffle_perm := fun _ xs => reflexivity xs;
     randint_range := fun _ a b H => conj (le_n a) H |}.

(** ** Vocabulary of the specification *)

(** The content of cell [(r, c)]; only read at indices within the grid. *)
Definition cell (g : grid) (r c : nat) : Z :=
  default 0%Z (g !! r ≫= fun row => row !! c).

(** The grid [g] with cell [(r, c)] holding [v]. *)
Definition upd (g : grid) (r c : nat) (v : Z) : grid :=
  <[r := <[c := v]> (default [] (g !! r))]> g.

(** The shape (9, 9). *)
Definition wf (g : grid) : Prop :=
  length g = 9 ∧ Forall (fun row => length row = 9) g.

(** Every cell holds 0 or a digit. *)
Definition in_range (g : grid) : Prop :=
  ∀ r c, r < 9 → c < 9 → (0 ≤ cell g r c ≤ 9)%Z.

(** No cell is empty. *)
Definition full (g : grid) : Prop :=
  ∀ r c, r < 9 → c < 9 → cell g r c ≠ 0%Z.

(** [(r', c')] lies in the 3x3 block of [(r, c)], with the bounds that
    [is_safe] computes. *)
Definition in_block (r c r' c' : nat) : Prop :=
  r - r mod 3 ≤ r' < r - r mod 3 + 3 ∧ c - c mod 3 ≤ c' < c - c mod 3 + 3.

(** [(r', c')] lies in the row, the column or the block of [(r, c)]. *)
Definition peer (r c r' c' : nat) : Prop :=
  r' = r ∨ c' = c ∨ in_block r c r' c'.

(** [v] occurs in the row, the column or the block of [(r, c)]; the cell
    [(r, c)] itself counts. *)
Definition occurs (g : grid) (r c : nat) (v : Z) : Prop :=
  ∃ r' c', r' < 9 ∧ c' < 9 ∧ peer r c r' c' ∧ cell g r' c' = v.

(** [v] occurs there in a cell other than [(r, c)]. *)
Definition occurs_elsewhere (g : grid) (r c : nat) (v : Z) : Prop :=
  ∃ r' c', r' < 9 ∧ c' < 9 ∧ (r', c') ≠ (r, c) ∧ peer r c r' c' ∧ cell g r' c' = v.

(** The puzzle invariant: no two filled cells of a row, a column or a
    block share a value. *)
Definition valid (g : grid) : Prop :=
  ∀ r c r' c', r < 9 → c < 9 → r' < 9 → c' < 9 →
    cell g r c ≠ 0%Z → cell g r c = cell g r' c' → peer r c r' c' →
    r' = r ∧ c' = c.

(** The first empty cell in row-major order. *)
Definition first_empty (g : grid) (r c : nat) : Prop :=
  r < 9 ∧ c < 9 ∧ cell g r c = 0%Z ∧
  ∀ r' c', r' < 9 → c' < 9 → r' < r ∨ (r' = r ∧ c' < c) → cell g r' c' ≠ 0%Z.

(** The solved-grid invariant. *)
Definition digits : list Z := seqZ 1 9.

Definition row_cells (g : grid) (r : nat) : list Z :=
  (fun c => cell g r c) <$> seq 0 9.

Definition col_cells (g : grid) (c : nat) : list Z :=
  (fun r => cell g r c) <$> seq 0 9.

Definition block_cells (g : grid) (br bc : nat) : list Z :=
  (fun k => cell g (3 * br + k / 3) (3 * bc + k mod 3)) <$> seq 0 9.

Definition solved (g : grid) : Prop :=
  (∀ r c, r < 9 → c < 9 → (1 ≤ cell g r c ≤ 9)%Z) ∧
  (∀ r, r < 9 → row_cells g r ≡ₚ digits) ∧
  (∀ c, c < 9 → col_cells g c ≡ₚ digits) ∧
  (∀ br bc, br < 3 → bc < 3 → block_cells g br bc ≡ₚ digits).

(** [s] keeps every filled cell of [g]. *)
Definition extends (g s : grid) : Prop :=
  ∀ r c, r < 9 → c < 9 → cell g r c ≠ 0%Z → cell s r c = cell g r c.

(** [g] can be completed to a solved grid. *)
Definition has_completion (g : grid) : Prop :=
  ∃ s, wf s ∧ solved s ∧ extends g s.

(** The number of empty cells, of a row and of a grid. *)
Definition zeros_in (row : list Z) : nat :=
  length (filter (fun v => v = 0%Z) row).

Definition count_zeros (g : grid) : nat :=
  sum_list (zeros_in <$> g).

(** A grid of ones: complete, and far from solved. *)
Definition ones : grid := replicate 9 (replicate 9 1%Z).

(** The empty grid with a 5 in its first cell. *)
Definition five_at_origin : grid := <[0 := <[0 := 5%Z]> (replicate 9 0%Z)]> zeros.

(** One if [P] holds and zero otherwise. *)
Definition indicator (P : Prop) `{!Decision P} : nat := if decide P then 1 else 0.

(** A digit. *)
Definition digit (v : Z) : Prop := (1 ≤ v ≤ 9)%Z.

(** What a backtracking search that started on [g] and answered [b]
    leaves in the grid [g']: the shape is kept; after a failure the grid
    is as it was; after a success the grid is complete and keeps the
    filled cells of [g]; the puzzle invariant and the range of the cells
    are kept. *)
Definition search_post (g : grid) (b : bool) (g' : grid) : Prop :=
  wf g' ∧
  (b = false → g' = g) ∧
  (b = true → full g' ∧ extends g g') ∧
  (valid g → in_range g → valid g' ∧ in_range g').

(** Lines 174-183 of [fill_grid], run at the first empty cell
    [(row, col)]: shuffle, try the numbers, and reset the cell when none
    of them leads to a complete grid. *)
Definition fill_found (R : rng) (rec : grid → nat → res (bool * grid * nat))
    (row col : nat) (numbers : list Z) (g : grid) (t : nat)
  : res (bool * grid * nat) :=
  '(filled, g', t') ← fill_numbers rec row col (shuffle_at R t numbers) g (S t);
  if filled : bool then Ok (true, g', t')
  else fill_reset (Some (row, col)) g' t'.

(** The loop variables [row] and [col] after [n] iterations over the
    cells from [a] on. *)
Definition last_cell (rc : option (nat * nat)) (a n : nat) : option (nat * nat) :=
  match n with
  | 0 => rc
  | S n' => Some ((a + n') / 9, (a + n') mod 9)
  end.

(** What a call that works on the object [l] leaves of the store: no
    object disappears, and every other object that was there is as it
    was. *)
Definition frame (l : nat) (w w' : world) : Prop :=
  length (heap w) ≤ length (heap w') ∧
  ∀ l', l' ≠ l → l' < length (heap w) → heap w' !! l' = heap w !! l'.

(** The solver answers true on [g]. *)
Definition solvable (depth : nat) (g : grid) : Prop :=
  ∃ s, solve_grid depth g = Ok (true, s).

(** The store of [generate_sudoku] after the fill phase and the copy:
    the solution [gs] at the first new reference, its copy at the
    second; [t] draws have been made. *)
Definition filled_world (w : world) (gs : grid) (t : nat) : world :=
  World (<[length (heap w) := gs]> (heap w ++ [zeros]) ++ [gs]) t.

(** The grid that [fill_grid] builds when no shuffle changes the order. *)
Definition sample_solution : grid :=
  [[1; 2; 3; 4; 5; 6; 7; 8; 9];
   [4; 5; 6; 7; 8; 9; 1; 2; 3];
   [7; 8; 9; 1; 2; 3; 4; 5; 6];
   [2; 1; 4; 3; 6; 5; 8; 9; 7];
   [3; 6; 5; 8; 9; 7; 2; 1; 4];
   [8; 9; 7; 2; 1; 4; 3; 6; 5];
   [5; 3; 1; 6; 4; 2; 9; 7; 8];
   [6; 4; 2; 9; 7; 8; 5; 3; 1];
   [9; 7; 8; 5; 3; 1; 6; 4; 2]]%Z.

(** An empty store before any draw. *)
Definition fresh_world : world := World [] 0.

(** The cell that an attempt of [remove_numbers] picks when [t] draws
    have been made: the row first, the column second. *)
Definition drawn_cell (R : rng) (t : nat) : nat * nat :=
  (randint_at R t 0 8, randint_at R (S t) 0 8).

(** The removal loop without its solvability check: every attempt
    empties the cell it draws, and the count goes down when that cell
    was filled.  The result is the grid, the count, the attempts and the
    number of draws at the exit of the loop. *)
Fixpoint remove_unchecked (R : rng) (fuel : nat) (g : grid) (count : Z)
    (attempts t : nat) : grid * Z * nat * nat :=
  if (0 <? count)%Z && (attempts <? max_attempts) then
    match fuel with
    | 0 => (g, count, attempts, t)
    | S fuel' =>
        let '(row, col) := drawn_cell R t in
        remove_unchecked R fuel' (upd g row col 0)
          (if (cell g row col =? 0)%Z then count else (count - 1)%Z)
          (attempts + 1) (S (S t))
    end
  else (g, count, attempts, t).

(** [s] comes no later than [s'] when the two grids are read in
    row-major order: they have the same cells, or at the first cell in
    which they differ [s] holds the smaller value. *)
Definition lex_le (s s' : grid) : Prop :=
  (∀ r c, r < 9 → c < 9 → cell s r c = cell s' r c) ∨
  ∃ r c, r < 9 ∧ c < 9 ∧ (cell s r c < cell s' r c)%Z ∧
    ∀ r' c', r' < 9 → c' < 9 → r' < r ∨ (r' = r ∧ c' < c) →
      cell s r' c' = cell s' r' c'.

(** A random source that reverses every list and always draws the upper
    bound. *)
Definition rng_high : rng :=
  {| shuffle_at := fun _ xs => reverse xs;
     randint_at := fun _ _ b => b;
     shuffle_perm := fun _ xs => reverse_Permutation xs;
     randint_range := fun _ a b H => conj H (le_n b) |}.

(** The grid that [fill_grid] builds when every shuffle reverses the
    order. *)
Definition other_solution : grid :=
  [[9; 8; 7; 6; 5; 4; 3; 2; 1];
   [6; 5; 4; 3; 2; 1; 9; 8; 7];
   [3; 2; 1; 9; 8; 7; 6; 5; 4];
   [8; 9; 6; 7; 4; 5; 2; 1; 3];
   [7; 4; 5; 2; 1; 3; 8; 9; 6];
   [2; 1; 3; 8; 9; 6; 7; 4; 5];
   [5; 7; 9; 4; 6; 8; 1; 3; 2];
   [4; 6; 8; 1; 3; 2; 5; 7; 9];
   [1; 3; 2; 5; 7; 9; 4; 6; 8]]%Z.

(** A puzzle without a completion whose givens do not clash: the first
    row lacks 1 and 2, and the two columns of its empty cells both hold
    a 1. *)
Definition dead_end : grid :=
  [[0; 0; 3; 4; 5; 6; 7; 8; 9];
   [0; 0; 0; 0; 0; 0; 0; 0; 0];
   [0; 0; 0; 0; 0; 0; 0; 0; 0];
   [1; 0; 0; 0; 0; 0; 0; 0; 0];
   [0; 0; 0; 0; 0; 0; 0; 0; 0];
   [0; 0; 0; 0; 0; 0; 0; 0; 0];
   [0; 1; 0; 0; 0; 0; 0; 0; 0];
   [0; 0; 0; 0; 0; 0; 0; 0; 0];
   [0; 0; 0; 0; 0; 0; 0; 0; 0]]%Z.

(** * Properties *)

(** ** The result monad *)

Lemma bind_Ok {A B} (m : res A) (k : A → res B) (b : B) :
  m ≫= k = Ok b ↔ ∃ a, m = Ok a ∧ k a = Ok b.
Proof.
  destruct m as [a|e]; simpl; split.
  - eauto.
  - by intros (a' & [= <-] & ?).
  - done.
  - by intros (a' & ? & _).
Qed.

(** ** Cells and updates *)

Section Grid.
Implicit Types (g : grid) (r c : nat) (v : Z).

Lemma cell_lookup g r c (row : list Z) v :
  g !! r = Some row → row !! c = Some v → cell g r c = v.
Proof. intros Hrow Hv. unfold cell. rewrite Hrow; simpl. by rewrite Hv. Qed.

Lemma wf_row g r : wf g → r < 9 → ∃ row, g !! r = Some row ∧ length row = 9.
Proof.
  intros [Hlen Hrows] Hr.
  destruct (lookup_lt_is_Some_2 g r) as [row Hrow]; [lia|].
  exists row; split; [done|].
  by eapply (Forall_lookup_1 _ _ _ _ Hrows).
Qed.

Lemma wf_cell g r c :
  wf g → r < 9 → c < 9 →
  ∃ row, g !! r = Some row ∧ length row = 9 ∧ row !! c = Some (cell g r c).
Proof.
  intros Hwf Hr Hc. destruct (wf_row g r Hwf Hr) as (row & Hrow & Hlen).
  exists row. split_and!; [done..|].
  destruct (lookup_lt_is_Some_2 row c) as [v Hv]; [lia|].
  by rewrite (cell_lookup g r c row v).
Qed.

Lemma get_cell g r c : wf g → r < 9 → c < 9 → get g r c = Ok (cell g r c).
Proof.
  intros Hwf Hr Hc. destruct (wf_cell g r c) as (row & Hrow & _ & Hv); [done..|].
  unfold get. rewrite Hrow; simpl. by rewrite Hv.
Qed.

Lemma set_upd g r c v : wf g → r < 9 → c < 9 → set g r c v = Ok (upd g r c v).
Proof.
  intros Hwf Hr Hc. destruct (wf_cell g r c) as (row & Hrow & _ & Hv); [done..|].
  unfold set, upd. rewrite Hrow; simpl. by rewrite Hv.
Qed.

Lemma wf_upd g r c v : wf g → wf (upd g r c v).
Proof.
  intros [Hlen Hrows]. unfold upd. split; [by rewrite length_insert|].
  destruct (g !! r) as [row|] eqn:Hrow; simpl.
  - apply Forall_insert; [done|]. rewrite length_insert.
    by eapply (Forall_lookup_1 _ _ _ _ Hrows).
  - rewrite list_insert_ge; [done|]. by apply lookup_ge_None.
Qed.

Lemma cell_upd g r c v r' c' :
  wf g → r < 9 → c < 9 →
  cell (upd g r c v) r' c' = if decide (r' = r ∧ c' = c) then v else cell g r' c'.
Proof.
  intros Hwf Hr Hc. destruct (wf_cell g r c) as (row & Hrow & Hlen & Hv); [done..|].
  unfold upd, cell. rewrite Hrow; simpl.
  destruct (decide (r' = r)) as [->|Hne].
  - rewrite list_lookup_insert_eq by (destruct Hwf; lia). simpl.
    destruct (decide (c' = c)) as [->|Hne'].
    + rewrite list_lookup_insert_eq by lia. by rewrite decide_True.
    + rewrite list_lookup_insert_ne by done. rewrite Hrow; simpl.
      rewrite decide_False; [done|tauto].
  - rewrite list_lookup_insert_ne by done. rewrite decide_False; [done|tauto].
Qed.

Lemma cell_upd_eq g r c v : wf g → r < 9 → c < 9 → cell (upd g r c v) r c = v.
Proof. intros. rewrite cell_upd by done. by rewrite decide_True. Qed.

Lemma cell_upd_ne g r c v r' c' :
  wf g → r < 9 → c < 9 → (r', c') ≠ (r, c) → cell (upd g r c v) r' c' = cell g r' c'.
Proof.
  intros. rewrite cell_upd by done. rewrite decide_False; [done|].
  intros [-> ->]; congruence.
Qed.

Lemma upd_upd g r c v v' : upd (upd g r c v) r c v' = upd g r c v'.
Proof.
  unfold upd. destruct (decide (r < length g)) as [Hlt|Hge].
  - rewrite list_lookup_insert_eq by done. simpl.
    by rewrite list_insert_insert_eq, list_insert_insert_eq.
  - rewrite !(list_insert_ge g) by lia. done.
Qed.

Lemma upd_cell g r c : wf g → r < 9 → c < 9 → upd g r c (cell g r c) = g.
Proof.
  intros Hwf Hr Hc. destruct (wf_cell g r c) as (row & Hrow & _ & Hv); [done..|].
  unfold upd. rewrite Hrow; simpl.
  rewrite (list_insert_id row) by done. by apply list_insert_id.
Qed.

Lemma upd_restore g r c v :
  wf g → r < 9 → c < 9 → upd (upd g r c v) r c (cell g r c) = g.
Proof. intros. rewrite upd_upd. by apply upd_cell. Qed.

Lemma wf_zeros : wf zeros.
Proof. split; [reflexivity|]. unfold zeros; simpl. repeat constructor. Qed.

Lemma cell_zeros r c : cell zeros r c = 0%Z.
Proof.
  unfold cell, zeros. destruct (decide (r < 9)).
  - rewrite lookup_replicate_2 by done. cbn -[replicate]. destruct (decide (c < 9)).
    + by rewrite lookup_replicate_2.
    + by rewrite (proj1 (lookup_replicate_None 9 0%Z c)) by lia.
  - by rewrite (proj1 (lookup_replicate_None 9 (replicate 9 0%Z) r)) by lia.
Qed.
End Grid.

(** ** Scanning for the first empty cell *)

Section FindEmpty.
Implicit Types (g : grid).

Lemma find_empty_in_row_spec g i n a :
  wf g → i < 9 → a + n ≤ 9 →
  (∃ j, find_empty_in_row g i (seq a n) = Ok (Some (i, j)) ∧ a ≤ j < a + n ∧
        cell g i j = 0%Z ∧ ∀ j', a ≤ j' < j → cell g i j' ≠ 0%Z)
  ∨ (find_empty_in_row g i (seq a n) = Ok None ∧
     ∀ j, a ≤ j < a + n → cell g i j ≠ 0%Z).
Proof.
  intros Hwf Hi. revert a. induction n as [|n IH]; intros a Ha; simpl.
  - right. split; [done|]. lia.
  - rewrite get_cell by (done || lia). simpl.
    destruct (Z.eqb_spec (cell g i a) 0) as [Hz|Hnz].
    + left. exists a. split_and!; [done|lia..|done|lia].
    + destruct (IH (S a)) as [(j & Hj & Hr & Hc & Hbefore)|[Hnone Hall]]; [lia|..].
      * left. exists j. split_and!; [done|lia..|done|].
        intros j' Hj'. destruct (decide (j' = a)) as [->|]; [done|].
        apply Hbefore; lia.
      * right. split; [done|]. intros j Hj.
        destruct (decide (j = a)) as [->|]; [done|]. apply Hall; lia.
Qed.

Lemma find_empty_rows_spec g n a :
  wf g → a + n ≤ 9 →
  (∃ i j, find_empty_rows g (seq a n) = Ok (Some (i, j)) ∧ a ≤ i < a + n ∧ j < 9 ∧
          cell g i j = 0%Z ∧
          ∀ i' j', j' < 9 → (a ≤ i' < i ∨ (i' = i ∧ j' < j)) → cell g i' j' ≠ 0%Z)
  ∨ (find_empty_rows g (seq a n) = Ok None ∧
     ∀ i j, a ≤ i < a + n → j < 9 → cell g i j ≠ 0%Z).
Proof.
  intros Hwf. revert a. induction n as [|n IH]; intros a Ha.
  - right. split; [done|]. lia.
  - change (seq a (S n)) with (a :: seq (S a) n). cbn [find_empty_rows].
    destruct (find_empty_in_row_spec g a 9 0)
      as [(j & -> & Hj & Hc & Hbefore)|[-> Hrow]]; [done|lia..| |]; simpl.
    + left. exists a, j. split_and!; [done|lia..|done|].
      intros i' j' Hj' [?|[-> ?]]; [lia|]. apply Hbefore; lia.
    + destruct (IH (S a)) as [(i & j & Hij & Hi & Hj & Hc & Hbefore)|[Hnone Hall]];
        [lia|..].
      * left. exists i, j. split_and!; [done|lia..|done|].
        intros i' j' Hj' Hlt. destruct (decide (i' = a)) as [->|].
        -- apply Hrow; lia.
        -- apply Hbefore; [done|lia].
      * right. split; [done|]. intros i j Hi Hj.
        destruct (decide (i = a)) as [->|]; [apply Hrow; lia|apply Hall; lia].
Qed.

Lemma find_empty_location_spec g :
  wf g →
  (∃ r c, find_empty_location g = Ok (Some (r, c)) ∧ first_empty g r c)
  ∨ (find_empty_location g = Ok None ∧ full g).
Proof.
  intros Hwf. unfold find_empty_location.
  destruct (find_empty_rows_spec g 9 0 Hwf)
    as [(i & j & Hij & Hi & Hj & Hc & Hbefore)|[Hnone Hall]]; [lia|..].
  - left. exists i, j. split; [done|]. split_and!; [lia|done..|].
    intros r' c' _ Hc' Hlt. apply Hbefore; [done|lia].
  - right. split; [done|]. intros r c Hr Hc. apply Hall; [lia|done].
Qed.

Lemma first_empty_unique g r c r' c' :
  first_empty g r c → first_empty g r' c' → r' = r ∧ c' = c.
Proof.
  intros (Hr & Hc & Hz & Hmin) (Hr' & Hc' & Hz' & Hmin').
  destruct (decide (r' < r ∨ (r' = r ∧ c' < c))) as [Hlt|Hge].
  { by destruct (Hmin r' c'). }
  destruct (decide (r < r' ∨ (r = r' ∧ c < c'))) as [Hlt|Hge'].
  { by destruct (Hmin' r c). }
  lia.
Qed.

Lemma find_empty_None g : wf g → full g → find_empty_location g = Ok None.
Proof.
  intros Hwf Hfull.
  destruct (find_empty_location_spec g Hwf) as [(r & c & _ & Hr & Hc & Hz & _)|[? _]];
    [|done].
  by destruct (Hfull r c).
Qed.

Lemma find_empty_Some g r c :
  wf g → find_empty_location g = Ok (Some (r, c)) → first_empty g r c.
Proof.
  intros Hwf Hfind.
  destruct (find_empty_location_spec g Hwf) as [(r' & c' & Heq & Hfirst)|[Heq _]];
    congruence.
Qed.
End FindEmpty.

(** ** The safety check *)

Section IsSafe.
Implicit Types (g : grid) (r c : nat) (v : Z).

Lemma mem_true v (xs : list Z) : mem v xs = true ↔ v ∈ xs.
Proof.
  unfold mem. rewrite existsb_exists. setoid_rewrite <- list_elem_of_In. split.
  - by intros (x & Hx & ->%Z.eqb_eq).
  - intros Hv. exists v. by rewrite Z.eqb_refl.
Qed.

Lemma elem_of_row g r (row : list Z) v :
  wf g → r < 9 → g !! r = Some row →
  v ∈ row ↔ ∃ c', c' < 9 ∧ cell g r c' = v.
Proof.
  intros Hwf Hr Hrow. rewrite list_elem_of_lookup. split.
  - intros [c' Hv]. exists c'. split.
    + destruct (wf_row g r Hwf Hr) as (row' & Hrow' & <-).
      assert (row' = row) as -> by congruence. by eapply lookup_lt_Some.
    + by eapply cell_lookup.
  - intros (c' & Hc' & <-). exists c'.
    destruct (wf_cell g r c' Hwf Hr Hc') as (row' & Hrow' & _ & Hv). congruence.
Qed.

Lemma column_spec g c :
  wf g → c < 9 →
  ∃ col : list Z, column g c = Ok col ∧
    ∀ v, v ∈ col ↔ ∃ r', r' < 9 ∧ cell g r' c = v.
Proof.
  intros Hwf Hc. exists ((fun row : list Z => default 0%Z (row !! c)) <$> g). split.
  - unfold column.
    rewrite (mapM_Some_2 (fun r : list Z => r !! c) g
               ((fun row : list Z => default 0%Z (row !! c)) <$> g)); [done|].
    apply Forall2_fmap_r, Forall_Forall2_diag.
    eapply Forall_impl; [exact (proj2 Hwf)|]. intros row Hlen. simpl in Hlen.
    destruct (lookup_lt_is_Some_2 row c) as [x Hx]; [lia|].
    unfold compose. by rewrite Hx.
  - intros v. rewrite list_elem_of_fmap. split.
    + intros (row & -> & [r' Hrow]%list_elem_of_lookup). exists r'.
      split; [|by unfold cell; rewrite Hrow; simpl; destruct (row !! c)].
      destruct Hwf as [<- _]. by eapply lookup_lt_Some.
    + intros (r' & Hr' & <-).
      destruct (wf_row g r' Hwf Hr') as (row & Hrow & _). exists row. split.
      * by unfold cell; rewrite Hrow; simpl; destruct (row !! c).
      * by eapply list_elem_of_lookup_2.
Qed.

Lemma elem_of_block g a b v :
  v ∈ mjoin (block g a b) ↔
  ∃ i j (row : list Z), i < 3 ∧ j < 3 ∧ g !! (a + i) = Some row ∧ row !! (b + j) = Some v.
Proof.
  unfold block. rewrite list_elem_of_join. split.
  - intros (xs & [j Hv]%list_elem_of_lookup & (row & -> & [i Hrow]%list_elem_of_lookup)%list_elem_of_fmap).
    apply lookup_take_Some in Hrow as [Hrow Hi]. rewrite lookup_drop in Hrow.
    apply lookup_take_Some in Hv as [Hv Hj]. rewrite lookup_drop in Hv.
    by exists i, j, row.
  - intros (i & j & row & Hi & Hj & Hrow & Hv). exists (take 3 (drop b row)). split.
    + apply (list_elem_of_lookup_2 _ j). by rewrite lookup_take_lt, lookup_drop.
    + apply list_elem_of_fmap. exists row. split; [done|].
      apply (list_elem_of_lookup_2 _ i). by rewrite lookup_take_lt, lookup_drop.
Qed.

Lemma block_origin r : r < 9 → r mod 3 ≤ r ∧ r - r mod 3 + 3 ≤ 9.
Proof.
  intros Hr. do 9 (destruct r as [|r]; [simpl; lia|]). lia.
Qed.

Lemma elem_of_block_cells g r c v :
  wf g → r < 9 → c < 9 →
  v ∈ mjoin (block g (r - r mod 3) (c - c mod 3)) ↔
  ∃ r' c', r' < 9 ∧ c' < 9 ∧ in_block r c r' c' ∧ cell g r' c' = v.
Proof.
  intros Hwf Hr Hc. rewrite elem_of_block. unfold in_block.
  pose proof (block_origin r Hr). pose proof (block_origin c Hc). split.
  - intros (i & j & row & Hi & Hj & Hrow & Hv).
    exists (r - r mod 3 + i), (c - c mod 3 + j). split_and!; try lia.
    by eapply cell_lookup.
  - intros (r' & c' & Hr' & Hc' & [Hi Hj] & <-).
    destruct (wf_cell g r' c' Hwf Hr' Hc') as (row & Hrow & _ & Hv).
    exists (r' - (r - r mod 3)), (c' - (c - c mod 3)), row.
    split_and!; [lia..| |].
    + by replace (r - r mod 3 + (r' - (r - r mod 3))) with r' by lia.
    + by replace (c - c mod 3 + (c' - (c - c mod 3))) with c' by lia.
Qed.

Lemma is_safe_spec g r c v :
  wf g → r < 9 → c < 9 →
  ∃ b : bool, is_safe g r c v = Ok b ∧ (b = false ↔ occurs g r c v).
Proof.
  intros Hwf Hr Hc. unfold is_safe, occurs, peer.
  destruct (wf_row g r Hwf Hr) as (row & Hrow & _). rewrite Hrow; simpl.
  pose proof (elem_of_row g r row v Hwf Hr Hrow) as Hinrow.
  destruct (mem v row) eqn:Hmr.
  { exists false. split; [done|]. split; [intros _|done].
    apply mem_true, Hinrow in Hmr as (c' & Hc' & Hv). exists r, c'. tauto. }
  destruct (column_spec g c Hwf Hc) as (col & -> & Hincol); simpl.
  destruct (mem v col) eqn:Hmc.
  { exists false. split; [done|]. split; [intros _|done].
    apply mem_true, Hincol in Hmc as (r' & Hr' & Hv). exists r', c. tauto. }
  pose proof (elem_of_block_cells g r c v Hwf Hr Hc) as Hinblock.
  eexists; split; [done|].
  rewrite negb_false_iff, mem_true, Hinblock. split.
  - intros (r' & c' & ?). exists r', c'. tauto.
  - intros (r' & c' & Hr' & Hc' & [->|[->|Hb]] & Hv).
    + assert (mem v row = true) as Habs; [|congruence].
      apply mem_true, Hinrow. eauto.
    + assert (mem v col = true) as Habs; [|congruence].
      apply mem_true, Hincol. eauto.
    + eauto 6.
Qed.

Lemma is_safe_true g r c v :
  wf g → r < 9 → c < 9 → is_safe g r c v = Ok true →
  ∀ r' c', r' < 9 → c' < 9 → peer r c r' c' → cell g r' c' ≠ v.
Proof.
  intros Hwf Hr Hc Hsafe r' c' Hr' Hc' Hpeer Hv.
  destruct (is_safe_spec g r c v Hwf Hr Hc) as (b & Hb & Hocc).
  assert (b = true) as -> by congruence.
  destruct Hocc as [_ Hocc]. discriminate Hocc. by exists r', c'.
Qed.

Lemma is_safe_total g r c v :
  wf g → r < 9 → c < 9 → ∃ b, is_safe g r c v = Ok b.
Proof.
  intros Hwf Hr Hc. destruct (is_safe_spec g r c v Hwf Hr Hc) as (b & Hb & _). eauto.
Qed.
End IsSafe.

(** ** The puzzle invariant and the solved-grid invariant *)

(** Brings the defining equation and the bound of every quotient and
    remainder by three into the context, for [lia]. *)
Ltac euclid3_fact a :=
  lazymatch goal with
  | _ : a = 3 * (a / 3) + a mod 3 |- _ => fail
  | _ => pose proof (Nat.div_mod_eq a 3);
         pose proof (Nat.mod_upper_bound a 3 ltac:(lia))
  end.

Ltac euclid3 :=
  repeat match goal with
  | |- context [?a mod 3] => euclid3_fact a
  | _ : context [?a mod 3] |- _ => euclid3_fact a
  | |- context [?a / 3] => euclid3_fact a
  | _ : context [?a / 3] |- _ => euclid3_fact a
  end.

Section Invariants.
Implicit Types (g : grid) (r c : nat) (v : Z).

Lemma in_block_sym r c r' c' : in_block r c r' c' → in_block r' c' r c.
Proof. unfold in_block. intros. euclid3. lia. Qed.

Lemma peer_sym r c r' c' : peer r c r' c' → peer r' c' r c.
Proof.
  unfold peer. intros [->|[->|Hb]]; [tauto..|]. right; right. by apply in_block_sym.
Qed.

Lemma valid_upd_safe g r c v :
  wf g → r < 9 → c < 9 → valid g →
  (∀ r' c', r' < 9 → c' < 9 → peer r c r' c' → cell g r' c' ≠ v) →
  valid (upd g r c v).
Proof.
  intros Hwf Hr Hc Hvalid Hsafe a b a' b' Ha Hb Ha' Hb'.
  rewrite !cell_upd by done.
  destruct (decide (a = r ∧ b = c)) as [[-> ->]|Hne];
    destruct (decide (a' = r ∧ b' = c)) as [[-> ->]|Hne'].
  - done.
  - intros _ Hv Hpeer. by destruct (Hsafe a' b').
  - intros _ Hv Hpeer. destruct (Hsafe a b); [done..|by apply peer_sym|done].
  - by apply Hvalid.
Qed.

Lemma in_range_upd g r c v :
  wf g → r < 9 → c < 9 → in_range g → (0 ≤ v ≤ 9)%Z → in_range (upd g r c v).
Proof.
  intros Hwf Hr Hc Hrange Hv a b Ha Hb. rewrite cell_upd by done.
  case_decide; [done|by apply Hrange].
Qed.

Lemma valid_zeros : valid zeros.
Proof. intros r c r' c' _ _ _ _ Hnz. by rewrite cell_zeros in Hnz. Qed.

Lemma in_range_zeros : in_range zeros.
Proof. intros r c _ _. rewrite cell_zeros. lia. Qed.

(** Nine distinct digits are a permutation of the digits. *)
Lemma lookup_fmap_seq (f : nat → Z) n i :
  i < n → (f <$> seq 0 n) !! i = Some (f i).
Proof. intros Hi. by rewrite list_lookup_fmap, lookup_seq_lt. Qed.

Lemma NoDup_fmap_seq (f : nat → Z) n :
  NoDup (f <$> seq 0 n) ↔ ∀ i j, i < n → j < n → f i = f j → i = j.
Proof.
  rewrite NoDup_alt. split.
  - intros Hnd i j Hi Hj Heq. apply (Hnd i j (f i)).
    + by apply lookup_fmap_seq.
    + rewrite Heq. by apply lookup_fmap_seq.
  - intros Hinj i j x Hi Hj.
    assert (i < n) by (apply lookup_lt_Some in Hi; by rewrite length_fmap, length_seq in Hi).
    assert (j < n) by (apply lookup_lt_Some in Hj; by rewrite length_fmap, length_seq in Hj).
    rewrite lookup_fmap_seq in Hi, Hj by done. apply Hinj; [done..|congruence].
Qed.

Lemma permutation_digits (f : nat → Z) :
  (∀ i, i < 9 → (1 ≤ f i ≤ 9)%Z) →
  (∀ i j, i < 9 → j < 9 → f i = f j → i = j) →
  f <$> seq 0 9 ≡ₚ digits.
Proof.
  intros Hdigit Hinj. apply submseteq_length_Permutation; [|done].
  apply NoDup_submseteq; [by apply NoDup_fmap_seq|].
  intros x (i & -> & Hi%elem_of_seq)%list_elem_of_fmap.
  apply elem_of_seqZ. specialize (Hdigit i). lia.
Qed.

Lemma digits_permutation (f : nat → Z) :
  f <$> seq 0 9 ≡ₚ digits →
  (∀ i, i < 9 → (1 ≤ f i ≤ 9)%Z) ∧
  (∀ i j, i < 9 → j < 9 → f i = f j → i = j).
Proof.
  intros Hperm. split.
  - intros i Hi. assert (f i ∈ digits) as Hin.
    { rewrite <- Hperm. apply list_elem_of_fmap. exists i. split; [done|].
      apply elem_of_seq. lia. }
    apply elem_of_seqZ in Hin. lia.
  - apply NoDup_fmap_seq. rewrite Hperm. apply NoDup_seqZ.
Qed.

Lemma solved_intro g : full g → valid g → in_range g → solved g.
Proof.
  intros Hfull Hvalid Hrange.
  assert (∀ r c, r < 9 → c < 9 → (1 ≤ cell g r c ≤ 9)%Z) as Hdigit.
  { intros r c Hr Hc. specialize (Hfull r c Hr Hc). specialize (Hrange r c Hr Hc). lia. }
  split_and!; [done|..].
  - intros r Hr. apply permutation_digits; [by auto|].
    intros i j Hi Hj Heq.
    by destruct (Hvalid r i r j Hr Hi Hr Hj (Hfull r i Hr Hi) Heq (or_introl eq_refl))
      as [_ ->].
  - intros c Hc. apply permutation_digits; [by auto|].
    intros i j Hi Hj Heq.
    by destruct (Hvalid i c j c Hi Hc Hj Hc (Hfull i c Hi Hc) Heq
                   (or_intror (or_introl eq_refl))) as [-> _].
  - intros br bc Hbr Hbc. apply permutation_digits.
    + intros i Hi. apply Hdigit; euclid3; lia.
    + intros i j Hi Hj Heq.
      destruct (Hvalid (3 * br + i / 3) (3 * bc + i mod 3)
                  (3 * br + j / 3) (3 * bc + j mod 3)) as [Hq Hm];
        [euclid3; lia..|apply Hfull; euclid3; lia|done| |euclid3; lia].
      right; right. unfold in_block. euclid3. lia.
Qed.

Lemma solved_elim g : solved g → full g ∧ valid g ∧ in_range g.
Proof.
  intros (Hdigit & Hrows & Hcols & Hblocks). split_and!.
  - intros r c Hr Hc. specialize (Hdigit r c Hr Hc). lia.
  - intros r c r' c' Hr Hc Hr' Hc' _ Heq [->|[->|Hb]].
    + destruct (digits_permutation _ (Hrows r Hr)) as [_ Hinj]. split; [done|].
      symmetry. by apply Hinj.
    + destruct (digits_permutation _ (Hcols c Hc)) as [_ Hinj]. split; [|done].
      symmetry. by apply Hinj.
    + unfold in_block in Hb.
      destruct (digits_permutation _ (Hblocks (r / 3) (c / 3)
                  ltac:(euclid3; lia) ltac:(euclid3; lia))) as [_ Hinj].
      specialize (Hinj (3 * (r mod 3) + c mod 3) (3 * (r' mod 3) + c' mod 3)).
      cbv beta in Hinj.
      replace (3 * (r / 3) + (3 * (r mod 3) + c mod 3) / 3) with r in Hinj
        by (euclid3; lia).
      replace (3 * (c / 3) + (3 * (r mod 3) + c mod 3) mod 3) with c in Hinj
        by (euclid3; lia).
      replace (3 * (r / 3) + (3 * (r' mod 3) + c' mod 3) / 3) with r' in Hinj
        by (euclid3; lia).
      replace (3 * (c / 3) + (3 * (r' mod 3) + c' mod 3) mod 3) with c' in Hinj
        by (euclid3; lia).
      specialize (Hinj ltac:(euclid3; lia) ltac:(euclid3; lia) Heq).
      euclid3. lia.
  - intros r c Hr Hc. specialize (Hdigit r c Hr Hc). lia.
Qed.
End Invariants.

(** ** Counting the empty cells *)

Section Counting.
Implicit Types (g : grid) (r c : nat) (v : Z).

Lemma zeros_in_insert (row : list Z) c x v :
  row !! c = Some x →
  zeros_in (<[c := v]> row) + indicator (x = 0%Z) = zeros_in row + indicator (v = 0%Z).
Proof.
  unfold zeros_in, indicator. revert c.
  induction row as [|y row IH]; intros [|c] Hc; simplify_eq/=.
  - rewrite !filter_cons. repeat case_decide; simpl; lia.
  - specialize (IH c Hc). rewrite !filter_cons. destruct (decide (y = 0%Z)); simpl; lia.
Qed.

Lemma sum_list_insert (ns : list nat) i n n' :
  ns !! i = Some n → sum_list (<[i := n']> ns) + n = sum_list ns + n'.
Proof.
  revert i. induction ns as [|m ns IH]; intros [|i] Hi; simplify_eq/=; [lia|].
  specialize (IH i Hi). lia.
Qed.

Lemma count_zeros_upd g r c v :
  wf g → r < 9 → c < 9 →
  count_zeros (upd g r c v) + indicator (cell g r c = 0%Z)
  = count_zeros g + indicator (v = 0%Z).
Proof.
  intros Hwf Hr Hc. destruct (wf_cell g r c Hwf Hr Hc) as (row & Hrow & _ & Hv).
  unfold count_zeros, upd. rewrite Hrow; simpl. rewrite list_fmap_insert.
  pose proof (sum_list_insert (zeros_in <$> g) r (zeros_in row)
                (zeros_in (<[c := v]> row))) as Hsum.
  rewrite list_lookup_fmap, Hrow in Hsum. specialize (Hsum eq_refl).
  pose proof (zeros_in_insert row c _ v Hv). lia.
Qed.

Lemma count_zeros_fill g r c v :
  wf g → r < 9 → c < 9 → cell g r c = 0%Z → v ≠ 0%Z →
  S (count_zeros (upd g r c v)) = count_zeros g.
Proof.
  intros Hwf Hr Hc Hz Hv. pose proof (count_zeros_upd g r c v Hwf Hr Hc) as Heq.
  unfold indicator in Heq. rewrite decide_True, decide_False in Heq by done. lia.
Qed.

Lemma count_zeros_clear g r c :
  wf g → r < 9 → c < 9 → cell g r c ≠ 0%Z →
  count_zeros (upd g r c 0) = S (count_zeros g).
Proof.
  intros Hwf Hr Hc Hnz. pose proof (count_zeros_upd g r c 0 Hwf Hr Hc) as Heq.
  unfold indicator in Heq. rewrite decide_False, decide_True in Heq by done. lia.
Qed.

Lemma zeros_in_le (row : list Z) : zeros_in row ≤ length row.
Proof. apply length_filter. Qed.

Lemma sum_list_le (ns : list nat) k :
  Forall (fun n => n ≤ k) ns → sum_list ns ≤ k * length ns.
Proof. induction 1; simpl; lia. Qed.

Lemma count_zeros_le g : wf g → count_zeros g ≤ 81.
Proof.
  intros [Hlen Hrows]. unfold count_zeros.
  etrans; [apply (sum_list_le _ 9)|rewrite length_fmap; lia].
  apply Forall_fmap. eapply Forall_impl; [done|]. intros row Hrow; simpl.
  pose proof (zeros_in_le row). simpl in *. lia.
Qed.

Lemma zeros_in_0 (row : list Z) : 0%Z ∉ row → zeros_in row = 0.
Proof.
  unfold zeros_in. induction row as [|y row IH]; [done|].
  rewrite not_elem_of_cons. intros [Hy Hrow]. rewrite filter_cons.
  rewrite decide_False by done. auto.
Qed.

Lemma sum_list_0 (ns : list nat) : Forall (fun n => n = 0) ns → sum_list ns = 0.
Proof. induction 1; simpl; lia. Qed.

Lemma count_zeros_full g : wf g → full g → count_zeros g = 0.
Proof.
  intros Hwf Hfull. unfold count_zeros. apply sum_list_0, Forall_fmap.
  apply Forall_lookup. intros r row Hrow. simpl. apply zeros_in_0.
  assert (r < 9) as Hr by (destruct Hwf as [<- _]; by eapply lookup_lt_Some).
  intros (c & Hc & Hz)%(elem_of_row g r row _ Hwf Hr Hrow). by apply (Hfull r c).
Qed.
End Counting.

(** ** The solver *)

Section Solve.
Implicit Types (g : grid) (r c : nat) (v : Z).

Lemma digits_digit : Forall digit (seqZ 1 9).
Proof. apply Forall_forall. intros v Hv%elem_of_seqZ. unfold digit. lia. Qed.

Lemma extends_upd g g' r c v :
  wf g → r < 9 → c < 9 → cell g r c = 0%Z →
  extends (upd g r c v) g' → extends g g'.
Proof.
  intros Hwf Hr Hc Hz Hext a b Ha Hb Hnz.
  assert ((a, b) ≠ (r, c)) as Hne by (intros [= -> ->]; done).
  rewrite <- (cell_upd_ne g r c v a b) by done.
  apply Hext; [done..|]. by rewrite cell_upd_ne.
Qed.

Lemma extends_refl g : extends g g.
Proof. by intros r c _ _ _. Qed.

Lemma search_post_placed g r c v b g' :
  wf g → r < 9 → c < 9 → cell g r c = 0%Z → digit v →
  (∀ r' c', r' < 9 → c' < 9 → peer r c r' c' → cell g r' c' ≠ v) →
  search_post (upd g r c v) b g' →
  wf g' ∧ (b = true → full g' ∧ extends g g') ∧
  (valid g → in_range g → valid g' ∧ in_range g').
Proof.
  intros Hwf Hr Hc Hz Hv Hsafe (Hwf' & _ & Htrue & Hinv). split_and!; [done| |].
  - intros Hb. destruct (Htrue Hb) as [Hfull Hext]. split; [done|].
    by apply (extends_upd g g' r c v).
  - intros Hvalid Hrange. apply Hinv.
    + by apply valid_upd_safe.
    + apply in_range_upd; [done..|]. unfold digit in Hv. lia.
Qed.

Section Numbers.
Variable rec : grid → res (bool * grid).
Hypothesis rec_sound : ∀ g b g', rec g = Ok (b, g') → wf g → search_post g b g'.

Lemma solve_numbers_sound row col numbers g b g' :
  wf g → row < 9 → col < 9 → cell g row col = 0%Z → Forall digit numbers →
  solve_numbers rec row col numbers g = Ok (b, g') →
  search_post g b g'.
Proof.
  intros Hwf Hrow Hcol Hz. induction 1 as [|number rest Hdigit _ IH]; simpl.
  { intros [= <- <-]. split_and!; [done..|]. by intros. }
  intros (safe & Hsafe & Hrun)%bind_Ok. destruct safe; [|by apply IH].
  rewrite set_upd in Hrun by done. simpl in Hrun.
  apply bind_Ok in Hrun as ([solved g2] & Hrec & Hrun).
  pose proof (is_safe_true g row col number Hwf Hrow Hcol Hsafe) as Hfree.
  pose proof (rec_sound _ _ _ Hrec (wf_upd g row col number Hwf)) as Hpost.
  destruct solved.
  - injection Hrun as <- <-.
    destruct (search_post_placed g row col number true g2) as (? & Htrue & Hinv);
      [done..|].
    split_and!; [done|by intros|exact Htrue|exact Hinv].
  - destruct Hpost as (_ & Hrestore & _). rewrite (Hrestore eq_refl) in Hrun.
    rewrite set_upd in Hrun by (done || by apply wf_upd). simpl in Hrun.
    rewrite upd_upd, <- Hz, upd_cell in Hrun by done. by apply IH.
Qed.

Variable n : nat.
Hypothesis rec_total : ∀ g, wf g → count_zeros g < n → ∃ out, rec g = Ok out.

Lemma solve_numbers_total row col numbers g :
  wf g → row < 9 → col < 9 → cell g row col = 0%Z → Forall digit numbers →
  count_zeros g ≤ n →
  ∃ out, solve_numbers rec row col numbers g = Ok out.
Proof.
  intros Hwf Hrow Hcol Hz Hnumbers Hcount.
  induction Hnumbers as [|number rest Hdigit _ IH]; simpl.
  { eauto. }
  destruct (is_safe_total g row col number Hwf Hrow Hcol) as [safe ->]; simpl.
  destruct safe; [|done].
  rewrite set_upd by done; simpl.
  destruct (rec_total (upd g row col number)) as [[solved g2] Hrec].
  { by apply wf_upd. }
  { pose proof (count_zeros_fill g row col number Hwf Hrow Hcol Hz).
    unfold digit in Hdigit. lia. }
  rewrite Hrec; simpl. destruct solved; [eauto|].
  destruct (rec_sound _ _ _ Hrec (wf_upd g row col number Hwf)) as (_ & Hrestore & _).
  rewrite (Hrestore eq_refl).
  rewrite set_upd by (done || by apply wf_upd). simpl.
  by rewrite upd_upd, <- Hz, upd_cell.
Qed.
End Numbers.

Lemma solve_grid_sound depth g b g' :
  solve_grid depth g = Ok (b, g') → wf g → search_post g b g'.
Proof.
  revert g b g'. induction depth as [|depth IH]; intros g b g'; [done|]. simpl.
  intros (location & Hfind & Hrun)%bind_Ok Hwf.
  destruct location as [[row col]|].
  - destruct (find_empty_Some g row col Hwf Hfind) as (Hrow & Hcol & Hz & _).
    apply (solve_numbers_sound (solve_grid depth) IH row col (seqZ 1 9));
      [done..|exact digits_digit|done].
  - injection Hrun as <- <-.
    destruct (find_empty_location_spec g Hwf) as [(r & c & Heq & _)|[_ Hfull]];
      [congruence|].
    split_and!; [done|done| |by intros]. intros _. split; [exact Hfull|apply extends_refl].
Qed.

Lemma solve_grid_total depth g :
  wf g → count_zeros g < depth → ∃ out, solve_grid depth g = Ok out.
Proof.
  revert g. induction depth as [|depth IH]; intros g Hwf Hdepth; [lia|]. simpl.
  destruct (find_empty_location_spec g Hwf)
    as [(row & col & -> & Hrow & Hcol & Hz & _)|[-> _]]; simpl; [|eauto].
  destruct (solve_numbers_total (solve_grid depth) (solve_grid_sound depth)
              depth IH row col (seqZ 1 9) g)
    as [out Hrun]; [done..|exact digits_digit|lia|eauto].
Qed.
End Solve.

(** ** Filling *)

#[local] Arguments Nat.div : simpl never.
#[local] Arguments Nat.modulo : simpl never.

Ltac euclid9_fact a :=
  lazymatch goal with
  | _ : a = 9 * (a / 9) + a mod 9 |- _ => fail
  | _ => pose proof (Nat.div_mod_eq a 9);
         pose proof (Nat.mod_upper_bound a 9 ltac:(lia))
  end.

Ltac euclid9 :=
  repeat match goal with
  | |- context [?a mod 9] => euclid9_fact a
  | _ : context [?a mod 9] |- _ => euclid9_fact a
  | |- context [?a / 9] => euclid9_fact a
  | _ : context [?a / 9] |- _ => euclid9_fact a
  end.

Section Fill.
Variable R : rng.
Implicit Types (g : grid) (r c : nat) (v : Z).

Lemma shuffled_digits t : Forall digit (shuffle_at R t (seqZ 1 9)).
Proof.
  apply Forall_forall. intros v Hv. rewrite (shuffle_perm R t) in Hv.
  by apply (proj1 (Forall_forall _ _) digits_digit).
Qed.

(** The scan of the loop [for i in range(0, 81)]. *)
Lemma fill_cells_scan rec n a rc numbers g t :
  wf g → a + n ≤ 81 →
  (∃ i, a ≤ i < a + n ∧ cell g (i / 9) (i mod 9) = 0%Z ∧
        (∀ i', a ≤ i' < i → cell g (i' / 9) (i' mod 9) ≠ 0%Z) ∧
        fill_cells R rec (seq a n) rc numbers g t
        = fill_found R rec (i / 9) (i mod 9) numbers g t)
  ∨ ((∀ i, a ≤ i < a + n → cell g (i / 9) (i mod 9) ≠ 0%Z) ∧
     fill_cells R rec (seq a n) rc numbers g t = fill_reset (last_cell rc a n) g t).
Proof.
  intros Hwf. revert a rc. induction n as [|n IH]; intros a rc Ha.
  { right. split; [lia|done]. }
  change (seq a (S n)) with (a :: seq (S a) n). cbn [fill_cells].
  rewrite get_cell by (done || euclid9; lia). cbn [mbind res_bind].
  destruct (Z.eqb_spec (cell g (a / 9) (a mod 9)) 0) as [Hz|Hnz].
  - left. exists a. split_and!; [lia|lia|done|intros; lia|reflexivity].
  - destruct (IH (S a) (Some (a / 9, a mod 9)))
      as [(i & Hi & Hz & Hbefore & Hrun)|[Hall Hrun]]; [lia|..].
    + left. exists i. split_and!; [lia..|done| |done].
      intros i' Hi'. destruct (decide (i' = a)) as [->|]; [done|]. apply Hbefore; lia.
    + right. split.
      * intros i Hi. destruct (decide (i = a)) as [->|]; [done|]. apply Hall; lia.
      * rewrite Hrun. unfold last_cell. destruct n as [|n'].
        -- by rewrite Nat.add_0_r.
        -- by replace (S a + n') with (a + S n') by lia.
Qed.

Lemma scan_first_empty g i :
  i < 81 → cell g (i / 9) (i mod 9) = 0%Z →
  (∀ i', i' < i → cell g (i' / 9) (i' mod 9) ≠ 0%Z) →
  first_empty g (i / 9) (i mod 9).
Proof.
  intros Hi Hz Hbefore. split_and!; [euclid9; lia..|done|].
  intros r' c' Hr' Hc' Hlt.
  specialize (Hbefore (9 * r' + c')).
  replace ((9 * r' + c') / 9) with r' in Hbefore by (euclid9; lia).
  replace ((9 * r' + c') mod 9) with c' in Hbefore by (euclid9; lia).
  apply Hbefore. euclid9. lia.
Qed.

Lemma scan_full g : (∀ i, i < 81 → cell g (i / 9) (i mod 9) ≠ 0%Z) → full g.
Proof.
  intros Hall r c Hr Hc. specialize (Hall (9 * r + c)).
  replace ((9 * r + c) / 9) with r in Hall by (euclid9; lia).
  replace ((9 * r + c) mod 9) with c in Hall by (euclid9; lia).
  apply Hall. lia.
Qed.

Lemma fill_grid_scan rec g t :
  wf g →
  (∃ row col, first_empty g row col ∧
     fill_cells R rec (seq 0 81) None (seqZ 1 9) g t
     = fill_found R rec row col (seqZ 1 9) g t)
  ∨ (full g ∧
     fill_cells R rec (seq 0 81) None (seqZ 1 9) g t = fill_reset (Some (8, 8)) g t).
Proof.
  intros Hwf.
  destruct (fill_cells_scan rec 81 0 None (seqZ 1 9) g t Hwf)
    as [(i & Hi & Hz & Hbefore & Hrun)|[Hall Hrun]]; [lia|..].
  - left. exists (i / 9), (i mod 9). split; [|done].
    apply scan_first_empty; [lia|done|]. intros i' Hi'. apply Hbefore; lia.
  - right. split; [|done]. apply scan_full. intros i Hi. apply Hall; lia.
Qed.

Lemma first_empty_not_full g r c : first_empty g r c → ¬ full g.
Proof. intros (Hr & Hc & Hz & _) Hfull. by apply (Hfull r c). Qed.

Lemma extends_off g0 g r c :
  wf g → r < 9 → c < 9 → cell g0 r c = 0%Z → upd g r c 0 = g0 → extends g0 g.
Proof.
  intros Hwf Hr Hc Hz <- a b Ha Hb Hnz.
  assert ((a, b) ≠ (r, c)) as Hne by (intros [= -> ->]; done).
  by rewrite cell_upd_ne.
Qed.

Lemma extends_trans g1 g2 g3 : extends g1 g2 → extends g2 g3 → extends g1 g3.
Proof.
  intros H12 H23 r c Hr Hc Hnz. rewrite <- (H12 r c) by done.
  apply H23; [done..|]. by rewrite H12.
Qed.

Section Numbers.
Variable rec : grid → nat → res (bool * grid * nat).
Hypothesis rec_sound :
  ∀ g t b g' t', rec g t = Ok (b, g', t') → wf g → ¬ full g → search_post g b g'.

(** The loop over the shuffled numbers at the cell [(row, col)] of a
    grid [g0] in which that cell is empty.  Between two iterations
    the grid is [g0] but for the cell, which may hold the number
    tried last. *)
Lemma fill_numbers_sound g0 row col numbers g t b g' t' :
  wf g0 → row < 9 → col < 9 → cell g0 row col = 0%Z → Forall digit numbers →
  wf g → upd g row col 0 = g0 →
  (valid g0 → in_range g0 → valid g ∧ in_range g) →
  fill_numbers rec row col numbers g t = Ok (b, g', t') →
  wf g' ∧ (b = false → upd g' row col 0 = g0) ∧
  (b = true → full g' ∧ extends g0 g') ∧
  (valid g0 → in_range g0 → valid g' ∧ in_range g').
Proof.
  intros Hwf0 Hrow Hcol Hz Hnumbers. revert g t.
  induction Hnumbers as [|number rest Hdigit _ IH]; intros g t Hwf Hoff Hinv; simpl.
  { intros [= <- <- <-]. split_and!; [done|done| |done]. by intros. }
  intros (safe & Hsafe & Hrun)%bind_Ok. destruct safe; [|by apply (IH g t)].
  rewrite set_upd in Hrun by done. simpl in Hrun.
  pose proof (is_safe_true g row col number Hwf Hrow Hcol Hsafe) as Hfree.
  set (g1 := upd g row col number) in *.
  assert (wf g1) as Hwf1 by by apply wf_upd.
  assert (upd g1 row col 0 = g0) as Hoff1 by (unfold g1; by rewrite upd_upd).
  assert (valid g0 → in_range g0 → valid g1 ∧ in_range g1) as Hinv1.
  { intros Hv0 Hr0. destruct (Hinv Hv0 Hr0) as [Hv Hr]. split.
    - by apply valid_upd_safe.
    - apply in_range_upd; [done..|]. unfold digit in Hdigit. lia. }
  assert (extends g0 g1) as Hext1 by by apply (extends_off g0 g1 row col).
  destruct (find_empty_location_spec g1 Hwf1)
    as [(r & c & Hfind & Hfirst)|[Hfind Hfull]]; rewrite Hfind in Hrun; simpl in Hrun.
  - apply bind_Ok in Hrun as ([[filled g2] t2] & Hrec & Hrun).
    destruct (rec_sound _ _ _ _ _ Hrec Hwf1 (first_empty_not_full _ _ _ Hfirst))
      as (Hwf2 & Hrestore & Htrue & Hinv2).
    destruct filled.
    + injection Hrun as <- <- <-. split_and!; [done|done| |].
      * intros _. destruct (Htrue eq_refl) as [Hfull2 Hext2]. split; [done|].
        by apply (extends_trans g0 g1 g2).
      * intros Hv0 Hr0. destruct (Hinv1 Hv0 Hr0). by apply Hinv2.
    + rewrite (Hrestore eq_refl) in Hrun. by apply (IH g1 t2).
  - injection Hrun as <- <- <-. split_and!; [done|done| |done]. by intros.
Qed.

Variable n : nat.
Hypothesis rec_total :
  ∀ g t, wf g → ¬ full g → count_zeros g < n → ∃ out, rec g t = Ok out.

Lemma fill_numbers_total g0 row col numbers g t :
  wf g0 → row < 9 → col < 9 → cell g0 row col = 0%Z → Forall digit numbers →
  count_zeros g0 ≤ n →
  wf g → upd g row col 0 = g0 →
  ∃ out, fill_numbers rec row col numbers g t = Ok out.
Proof.
  intros Hwf0 Hrow Hcol Hz Hnumbers Hcount. revert g t.
  induction Hnumbers as [|number rest Hdigit _ IH]; intros g t Hwf Hoff; simpl.
  { eauto. }
  destruct (is_safe_total g row col number Hwf Hrow Hcol) as [safe ->]; simpl.
  destruct safe; [|by apply IH].
  rewrite set_upd by done; simpl.
  set (g1 := upd g row col number) in *.
  assert (wf g1) as Hwf1 by by apply wf_upd.
  assert (upd g1 row col 0 = g0) as Hoff1 by (unfold g1; by rewrite upd_upd).
  assert (g1 = upd g0 row col number) as Hg1 by (by rewrite <- Hoff, upd_upd).
  destruct (find_empty_location_spec g1 Hwf1)
    as [(r & c & -> & Hfirst)|[-> Hfull]]; simpl; [|eauto].
  destruct (rec_total g1 t) as [[[filled g2] t2] Hrec];
    [done|by eapply first_empty_not_full|..].
  { pose proof (count_zeros_fill g0 row col number Hwf0 Hrow Hcol Hz) as Hfill.
    rewrite <- Hg1 in Hfill. unfold digit in Hdigit. lia. }
  rewrite Hrec; simpl. destruct filled; [eauto|].
  destruct (rec_sound _ _ _ _ _ Hrec Hwf1 (first_empty_not_full _ _ _ Hfirst))
    as (_ & Hrestore & _).
  rewrite (Hrestore eq_refl). by apply IH.
Qed.
End Numbers.

Lemma fill_grid_sound depth g t b g' t' :
  fill_grid R depth g t = Ok (b, g', t') → wf g → ¬ full g → search_post g b g'.
Proof.
  revert g t b g' t'. induction depth as [|depth IH]; intros g t b g' t'; [done|].
  cbn [fill_grid]. intros Hrun Hwf Hnotfull.
  destruct (fill_grid_scan (fill_grid R depth) g t Hwf)
    as [(row & col & Hfirst & Heq)|[Hfull _]]; [|done].
  rewrite Heq in Hrun. unfold fill_found in Hrun.
  apply bind_Ok in Hrun as ([[filled g1] t1] & Hloop & Hrun).
  destruct Hfirst as (Hrow & Hcol & Hz & _).
  destruct (fill_numbers_sound (fill_grid R depth) IH g row col
              (shuffle_at R t (seqZ 1 9)) g (S t) filled g1 t1
              Hwf Hrow Hcol Hz (shuffled_digits t) Hwf) as (Hwf1 & Hoff & Htrue & Hinv);
    [by rewrite <- Hz, upd_cell|done|exact Hloop|].
  destruct filled.
  - injection Hrun as <- <- <-. split_and!; [done|done|exact Htrue|exact Hinv].
  - unfold fill_reset in Hrun. cbn [of_option mbind res_bind] in Hrun.
    rewrite set_upd in Hrun by done. injection Hrun as <- <- <-.
    rewrite (Hoff eq_refl). split_and!; [done|done| |done]. by intros.
Qed.

Lemma fill_grid_total depth g t :
  wf g → ¬ full g → count_zeros g < depth → ∃ out, fill_grid R depth g t = Ok out.
Proof.
  revert g t. induction depth as [|depth IH]; intros g t Hwf Hnotfull Hdepth; [lia|].
  cbn [fill_grid].
  destruct (fill_grid_scan (fill_grid R depth) g t Hwf)
    as [(row & col & Hfirst & ->)|[Hfull _]]; [|done].
  unfold fill_found. destruct Hfirst as (Hrow & Hcol & Hz & _).
  destruct (fill_numbers_total (fill_grid R depth) (fill_grid_sound depth) depth
              (fun g t => IH g t) g row col (shuffle_at R t (seqZ 1 9)) g (S t))
    as [[[filled g1] t1] Hloop];
    [done..|exact (shuffled_digits t)|lia|done|by rewrite <- Hz, upd_cell|].
  rewrite Hloop. cbn [mbind res_bind]. destruct filled; [eauto|].
  destruct (fill_numbers_sound (fill_grid R depth) (fill_grid_sound depth)
              g row col (shuffle_at R t (seqZ 1 9)) g (S t) false g1 t1
              Hwf Hrow Hcol Hz (shuffled_digits t) Hwf) as (Hwf1 & _);
    [by rewrite <- Hz, upd_cell|done|exact Hloop|].
  unfold fill_reset. cbn [of_option mbind res_bind]. rewrite set_upd by done. eauto.
Qed.

(** On a grid without an empty cell the scan runs to its end and the
    reset hits the last cell. *)
Lemma fill_grid_full depth g t :
  wf g → full g → fill_grid R (S depth) g t = Ok (false, upd g 8 8 0, t).
Proof.
  intros Hwf Hfull. cbn [fill_grid].
  destruct (fill_grid_scan (fill_grid R depth) g t Hwf)
    as [(row & col & Hfirst & _)|[_ ->]].
  - by destruct (first_empty_not_full _ _ _ Hfirst).
  - unfold fill_reset. cbn [of_option mbind res_bind]. by rewrite set_upd by (done || lia).
Qed.
End Fill.

(** ** More fuel does not change an answer *)

Section Monotone.
Lemma solve_numbers_mono (rec rec' : grid → res (bool * grid)) row col numbers g out :
  (∀ g out, rec g = Ok out → rec' g = Ok out) →
  solve_numbers rec row col numbers g = Ok out →
  solve_numbers rec' row col numbers g = Ok out.
Proof.
  intros Hrec. revert g. induction numbers as [|number rest IH]; intros g; simpl; [done|].
  intros (safe & -> & Hrun)%bind_Ok; simpl. destruct safe; [|by apply IH].
  apply bind_Ok in Hrun as (g1 & -> & Hrun); simpl.
  apply bind_Ok in Hrun as ([solved g2] & Hcall & Hrun).
  rewrite (Hrec _ _ Hcall); simpl. destruct solved; [done|].
  apply bind_Ok in Hrun as (g3 & -> & Hrun); simpl. by apply IH.
Qed.

Lemma solve_grid_unfold depth g :
  solve_grid (S depth) g
  = (location ← find_empty_location g;
     match location with
     | None => Ok (true, g)
     | Some (row, col) => solve_numbers (solve_grid depth) row col (seqZ 1 9) g
     end).
Proof. reflexivity. Qed.

Lemma solve_grid_S depth g out :
  solve_grid depth g = Ok out → solve_grid (S depth) g = Ok out.
Proof.
  revert g out. induction depth as [|depth IH]; intros g out; [done|].
  rewrite (solve_grid_unfold depth g), (solve_grid_unfold (S depth) g).
  intros (location & -> & Hrun)%bind_Ok. cbn [mbind res_bind].
  destruct location as [[row col]|]; [|done].
  by apply (solve_numbers_mono (solve_grid depth)).
Qed.

Lemma solve_grid_mono depth depth' g out :
  depth ≤ depth' → solve_grid depth g = Ok out → solve_grid depth' g = Ok out.
Proof. induction 1; [done|]. intros. by apply solve_grid_S, IHle. Qed.

Lemma solvable_zeros depth : 82 ≤ depth → solvable depth zeros.
Proof.
  intros Hdepth. eexists. apply (solve_grid_mono 82); [done|]. vm_compute. reflexivity.
Qed.

Lemma solvable_full depth g : wf g → full g → 1 ≤ depth → solvable depth g.
Proof.
  intros Hwf Hfull Hdepth. exists g. destruct depth as [|depth]; [lia|].
  simpl. by rewrite find_empty_None.
Qed.
End Monotone.

(** ** The store *)

Section Store.
Implicit Types (w : world) (g : grid) (l : nat).

Lemma load_cell w l g r c :
  heap w !! l = Some g → wf g → r < 9 → c < 9 → load w l r c = Ok (cell g r c).
Proof. intros Hl Hwf Hr Hc. unfold load, deref. rewrite Hl; simpl. by apply get_cell. Qed.

Lemma store_upd w l g r c v :
  heap w !! l = Some g → wf g → r < 9 → c < 9 →
  store w l r c v = Ok (assign w l (upd g r c v)).
Proof.
  intros Hl Hwf Hr Hc. unfold store, deref. rewrite Hl; simpl.
  by rewrite set_upd.
Qed.

Lemma copy_new w l g :
  heap w !! l = Some g → copy w l = Ok (length (heap w), World (heap w ++ [g]) (draws w)).
Proof. intros Hl. unfold copy, deref. by rewrite Hl. Qed.

Lemma call_solve_grid_run depth w l g b s :
  heap w !! l = Some g → solve_grid depth g = Ok (b, s) →
  call_solve_grid depth w l = Ok (b, assign w l s).
Proof. intros Hl Hrun. unfold call_solve_grid, deref. rewrite Hl; simpl. by rewrite Hrun. Qed.

Lemma frame_refl l w : frame l w w.
Proof. by split. Qed.

Lemma frame_trans l w1 w2 w3 : frame l w1 w2 → frame l w2 w3 → frame l w1 w3.
Proof.
  intros [Hlen12 H12] [Hlen23 H23]. split; [lia|].
  intros l' Hne Hl'. rewrite H23 by (done || lia). by apply H12.
Qed.
End Store.

(** ** Removing numbers *)

Section Remove.
Variable R : rng.
Implicit Types (w : world) (g : grid) (l : nat).

Lemma randint_cell n : randint_at R n 0 8 < 9.
Proof. pose proof (randint_range R n 0 8). lia. Qed.

(** One attempt either leaves the array as it was, or empties one
    filled cell of it, and then the solver has answered true on the
    array as it is left. *)
Lemma remove_attempt_spec depth l count w g :
  heap w !! l = Some g → wf g → 82 ≤ depth →
  ∃ count' w' g',
    remove_attempt R depth l count w = Ok (count', w') ∧
    heap w' !! l = Some g' ∧ wf g' ∧ frame l w w' ∧
    ((count' = count ∧ g' = g) ∨
     (count' = (count - 1)%Z ∧ solvable depth g' ∧
      ∃ row col, row < 9 ∧ col < 9 ∧ cell g row col ≠ 0%Z ∧ g' = upd g row col 0)).
Proof.
  intros Hl Hwf Hdepth. unfold remove_attempt, randint. cbn [heap draws].
  set (row := randint_at R (draws w) 0 8).
  set (col := randint_at R (S (draws w)) 0 8).
  assert (row < 9) as Hrow by apply randint_cell.
  assert (col < 9) as Hcol by apply randint_cell.
  set (w2 := World (heap w) (S (S (draws w)))).
  assert (heap w2 !! l = Some g) as Hl2 by done.
  rewrite (load_cell w2 l g) by done. cbn [mbind res_bind].
  assert (l < length (heap w)) as Hlt by by eapply lookup_lt_Some.
  destruct (Z.eqb_spec (cell g row col) 0) as [Hz|Hnz]; cbn [negb].
  { exists count, w2, g. split_and!; [done..|by split|by left]. }
  rewrite (store_upd w2 l g) by done. cbn [mbind res_bind].
  set (g1 := upd g row col 0).
  assert (wf g1) as Hwf1 by by apply wf_upd.
  set (w3 := assign w2 l g1).
  assert (heap w3 !! l = Some g1) as Hl3 by by apply list_lookup_insert_eq.
  rewrite (copy_new w3 l g1) by done. cbn [mbind res_bind].
  set (w4 := World (heap w3 ++ [g1]) (draws w3)).
  assert (length (heap w3) = length (heap w)) as Hlen3 by apply length_insert.
  assert (heap w4 !! length (heap w3) = Some g1) as Hl4 by by apply list_lookup_middle.
  destruct (solve_grid_total depth g1) as [[solved s] Hsolve]; [done|..].
  { pose proof (count_zeros_le g1 Hwf1). lia. }
  rewrite (call_solve_grid_run depth w4 _ g1 solved s) by done. cbn [mbind res_bind].
  set (w5 := assign w4 (length (heap w3)) s).
  assert (heap w5 !! l = Some g1) as Hl5.
  { unfold w5, assign, w4; cbn [heap].
    rewrite list_lookup_insert_ne by lia. by rewrite lookup_app_l by lia. }
  assert (frame l w w5) as Hframe5.
  { split.
    - unfold w5, assign, w4; cbn [heap]. rewrite length_insert, length_app. lia.
    - intros l' Hne Hl'. unfold w5, assign, w4; cbn [heap].
      rewrite list_lookup_insert_ne by lia. rewrite lookup_app_l by lia.
      unfold w3, assign; cbn [heap]. by rewrite list_lookup_insert_ne. }
  destruct solved.
  - exists (count - 1)%Z, w5, g1. split_and!; [done..|]. right.
    split_and!; [done|by exists s|]. by exists row, col.
  - rewrite (store_upd w5 l g1) by done. cbn [mbind res_bind].
    unfold g1. rewrite upd_restore by done.
    exists count, (assign w5 l g), g. split_and!; [done| |done| |by left].
    + cbn [assign heap]. apply list_lookup_insert_eq. by eapply lookup_lt_Some.
    + destruct Hframe5 as [Hlen5 Hother]. split.
      * cbn [assign heap]. by rewrite length_insert.
      * intros l' Hne Hl'. cbn [assign heap].
        rewrite list_lookup_insert_ne by done. by apply Hother.
Qed.

Lemma extends_clear g r c : wf g → r < 9 → c < 9 → extends (upd g r c 0) g.
Proof.
  intros Hwf Hr Hc a b Ha Hb. rewrite cell_upd by done. by case_decide.
Qed.

(** The loop, run with enough fuel for the attempts that are left. *)
Lemma remove_loop_spec depth fuel l count attempts w g :
  heap w !! l = Some g → wf g → 82 ≤ depth → max_attempts - attempts ≤ fuel →
  ∃ count' attempts' w' g',
    remove_loop R depth fuel l count attempts w = Ok (count', attempts', w') ∧
    heap w' !! l = Some g' ∧ wf g' ∧ frame l w w' ∧ extends g' g ∧
    (Z.of_nat (count_zeros g') + Z.max 0 count'
     = Z.of_nat (count_zeros g) + Z.max 0 count)%Z ∧
    attempts ≤ attempts' ≤ Nat.max attempts max_attempts ∧
    (g' = g ∨ solvable depth g') ∧
    ((count' ≤ 0)%Z ∨ max_attempts ≤ attempts').
Proof.
  intros Hl Hwf Hdepth. revert count attempts w g Hl Hwf.
  induction fuel as [|fuel IH]; intros count attempts w g Hl Hwf Hfuel;
    cbn [remove_loop];
    destruct (Z.ltb_spec 0 count) as [Hcount|Hcount];
    destruct (Nat.ltb_spec attempts max_attempts) as [Hatt|Hatt]; cbn [andb];
    try (exists count, attempts, w, g;
         split_and!; [done|done|done|apply frame_refl|apply extends_refl|
                      done|lia|lia|by left|lia]).
  { lia. }
  destruct (remove_attempt_spec depth l count w g Hl Hwf Hdepth)
    as (count1 & w1 & g1 & -> & Hl1 & Hwf1 & Hframe1 & Hstep).
  cbn [mbind res_bind].
  destruct (IH count1 (attempts + 1) w1 g1 Hl1 Hwf1 ltac:(lia))
    as (count' & attempts' & w' & g' & -> & Hl' & Hwf' & Hframe' & Hext' & Hzeros' &
        Hatt' & Hsolv' & Hexit').
  exists count', attempts', w', g'.
  destruct Hstep as [[-> ->]|(-> & Hsolv1 & row & col & Hrow & Hcol & Hnz & ->)].
  - split_and!; [done|done|done|by eapply frame_trans|done|done|lia|lia|done|done].
  - split_and!; [done|done|done|by eapply frame_trans| | |lia|lia| |done].
    + eapply extends_trans; [exact Hext'|by apply extends_clear].
    + rewrite (count_zeros_clear g row col) in Hzeros' by done. lia.
    + right. by destruct Hsolv' as [->|].
Qed.

Lemma remove_numbers_spec depth fuel l count w g :
  heap w !! l = Some g → wf g → 82 ≤ depth → max_attempts ≤ fuel →
  ∃ count' attempts' w' g',
    remove_numbers R depth fuel l count w = Ok (count', attempts', w') ∧
    heap w' !! l = Some g' ∧ wf g' ∧ frame l w w' ∧ extends g' g ∧
    (Z.of_nat (count_zeros g') + Z.max 0 count'
     = Z.of_nat (count_zeros g) + Z.max 0 count)%Z ∧
    attempts' ≤ max_attempts ∧
    (g' = g ∨ solvable depth g') ∧
    ((count' ≤ 0)%Z ∨ max_attempts ≤ attempts').
Proof.
  intros Hl Hwf Hdepth Hfuel.
  destruct (remove_loop_spec depth fuel l count 0 w g Hl Hwf Hdepth ltac:(lia))
    as (count' & attempts' & w' & g' & Hrun & Hl' & Hwf' & Hframe & Hext & Hzeros &
        Hatt & Hsolv & Hexit).
  exists count', attempts', w', g'. split_and!; [done..|lia|done|done].
Qed.
End Remove.

(** ** Generating a puzzle *)

Section Generate.
Variable R : rng.
Implicit Types (w : world) (g : grid).

Lemma removal_branches depth fuel difficulty l w :
  (if String.eqb difficulty "Easy" then remove_numbers R depth fuel l 40%Z w
   else if String.eqb difficulty "Medium" then remove_numbers R depth fuel l 50%Z w
   else remove_numbers R depth fuel l 60%Z w)
  = remove_numbers R depth fuel l (removal_target difficulty) w.
Proof.
  unfold removal_target.
  by destruct (String.eqb difficulty "Easy"), (String.eqb difficulty "Medium").
Qed.

Lemma zeros_not_full : ¬ full zeros.
Proof. intros Hfull. apply (Hfull 0 0); [lia..|]. apply cell_zeros. Qed.

Lemma count_zeros_zeros : count_zeros zeros = 81.
Proof. reflexivity. Qed.

Lemma generate_sudoku_spec depth fuel difficulty w :
  82 ≤ depth → max_attempts ≤ fuel →
  ∃ filled gs t count' attempts' w' gp,
    fill_grid R depth zeros (draws w) = Ok (filled, gs, t) ∧
    remove_numbers R depth fuel (S (length (heap w))) (removal_target difficulty)
      (filled_world w gs t) = Ok (count', attempts', w') ∧
    generate_sudoku R depth fuel difficulty w
    = Ok (GameData (S (length (heap w))) (length (heap w)), w') ∧
    search_post zeros filled gs ∧
    heap w' !! length (heap w) = Some gs ∧
    heap w' !! S (length (heap w)) = Some gp ∧
    wf gp ∧ extends gp gs ∧
    (Z.of_nat (count_zeros gp) + Z.max 0 count'
     = Z.of_nat (count_zeros gs) + Z.max 0 (removal_target difficulty))%Z ∧
    attempts' ≤ max_attempts ∧
    (gp = gs ∨ solvable depth gp) ∧
    (∀ l, l < length (heap w) → heap w' !! l = heap w !! l).
Proof.
  intros Hdepth Hfuel.
  destruct (fill_grid_total R depth zeros (draws w) wf_zeros zeros_not_full)
    as [[[filled gs] t] Hfill]; [rewrite count_zeros_zeros; lia|].
  pose proof (fill_grid_sound R depth zeros (draws w) filled gs t Hfill
                wf_zeros zeros_not_full) as Hpost.
  assert (wf gs) as Hwfs by apply Hpost.
  set (s := length (heap w)). set (w3 := filled_world w gs t).
  assert (heap w3 !! s = Some gs) as Hs.
  { unfold w3, filled_world; cbn [heap]. fold s.
    rewrite lookup_app_l by (rewrite length_insert, length_app; simpl; lia).
    apply list_lookup_insert_eq. rewrite length_app; simpl. lia. }
  assert (heap w3 !! S s = Some gs) as Hp.
  { unfold w3, filled_world; cbn [heap]. fold s.
    apply list_lookup_middle. rewrite length_insert, length_app; simpl. lia. }
  assert (length (heap w3) = S (S s)) as Hlen3.
  { unfold w3, filled_world; cbn [heap]. fold s.
    rewrite length_app, length_insert, length_app; simpl. lia. }
  destruct (remove_numbers_spec R depth fuel (S s) (removal_target difficulty) w3 gs
              Hp Hwfs Hdepth Hfuel)
    as (count' & attempts' & w' & gp & Hremove & Hp' & Hwfp & [Hlen Hframe] & Hext &
        Hzeros & Hatt & Hsolv & _).
  exists filled, gs, t, count', attempts', w', gp.
  split_and!; [done|done| |done| |done|done|done|done|done|done|].
  - unfold generate_sudoku, new_array. fold s.
    unfold call_fill_grid, deref; cbn [heap draws].
    rewrite list_lookup_middle by done. cbn [of_option mbind res_bind].
    rewrite Hfill. cbn [mbind res_bind].
    unfold copy, deref, new_array; cbn [heap draws].
    rewrite list_lookup_insert_eq by (rewrite length_app; simpl; lia).
    cbn [of_option mbind res_bind].
    rewrite length_insert, length_app, Nat.add_1_r. fold s.
    rewrite removal_branches.
    change (World (<[s:=gs]> (heap w ++ [zeros]) ++ [gs]) t) with w3.
    by rewrite Hremove.
  - rewrite Hframe by lia. done.
  - intros l Hl. rewrite Hframe by lia.
    unfold w3, filled_world; cbn [heap]. fold s.
    rewrite lookup_app_l by (rewrite length_insert, length_app; simpl; lia).
    rewrite list_lookup_insert_ne by lia. by rewrite lookup_app_l.
Qed.
End Generate.

(** ** Concrete grids *)

Section Samples.
Lemma wf_ones : wf ones.
Proof. split; [reflexivity|]. unfold ones; simpl. repeat constructor. Qed.

Lemma wf_five_at_origin : wf five_at_origin.
Proof. split; [reflexivity|]. unfold five_at_origin, zeros; simpl. repeat constructor. Qed.

Lemma five_at_origin_upd : five_at_origin = upd zeros 0 0 5.
Proof. reflexivity. Qed.

Lemma sample_solution_filled :
  fill_grid rng_low 82 zeros 0 = Ok (true, sample_solution, 391).
Proof. vm_compute. reflexivity. Qed.

Lemma sample_solution_solved : wf sample_solution ∧ solved sample_solution.
Proof.
  destruct (fill_grid_sound rng_low 82 zeros 0 true sample_solution 391
              sample_solution_filled wf_zeros zeros_not_full)
    as (Hwf & _ & Htrue & Hinv).
  destruct (Htrue eq_refl) as [Hfull _].
  destruct (Hinv valid_zeros in_range_zeros) as [Hvalid Hrange].
  split; [done|]. by apply solved_intro.
Qed.

Lemma ones_no_completion : ¬ has_completion ones.
Proof.
  intros (s & Hwf & Hsolved & Hext).
  destruct (solved_elim s Hsolved) as (Hfull & Hvalid & _).
  assert (cell s 0 0 = 1%Z) as H00 by (by rewrite (Hext 0 0); [|lia..|]).
  assert (cell s 0 1 = 1%Z) as H01 by (by rewrite (Hext 0 1); [|lia..|]).
  destruct (Hvalid 0 0 0 1) as [_ Hc]; [lia..|by rewrite H00|congruence|by left|].
  discriminate Hc.
Qed.
Lemma other_solution_filled :
  fill_grid rng_high 82 zeros 0 = Ok (true, other_solution, 391).
Proof. vm_compute. reflexivity. Qed.

Lemma other_solution_solved : wf other_solution ∧ solved other_solution.
Proof.
  destruct (fill_grid_sound rng_high 82 zeros 0 true other_solution 391
              other_solution_filled wf_zeros zeros_not_full)
    as (Hwf & _ & Htrue & Hinv).
  destruct (Htrue eq_refl) as [Hfull _].
  destruct (Hinv valid_zeros in_range_zeros) as [Hvalid Hrange].
  split; [done|]. by apply solved_intro.
Qed.

Lemma valid_place (g : grid) (r c : nat) (v : Z) :
  wf g → r < 9 → c < 9 → valid g → is_safe g r c v = Ok true → valid (upd g r c v).
Proof. intros Hwf Hr Hc Hvalid Hsafe. apply valid_upd_safe; [done..|]. by apply is_safe_true. Qed.

Lemma dead_end_built :
  dead_end
  = upd (upd (upd (upd (upd (upd (upd (upd (upd zeros
      0 2 3) 0 3 4) 0 4 5) 0 5 6) 0 6 7) 0 7 8) 0 8 9) 3 0 1) 6 1 1.
Proof. reflexivity. Qed.

Lemma wf_dead_end : wf dead_end.
Proof. rewrite dead_end_built. repeat apply wf_upd. apply wf_zeros. Qed.

Lemma valid_dead_end : valid dead_end.
Proof.
  rewrite dead_end_built.
  repeat (apply valid_place;
          [repeat apply wf_upd; apply wf_zeros|lia|lia| |vm_compute; reflexivity]).
  apply valid_zeros.
Qed.

Lemma in_range_dead_end : in_range dead_end.
Proof.
  rewrite dead_end_built.
  repeat (apply in_range_upd; [repeat apply wf_upd; apply wf_zeros|lia|lia| |lia]).
  apply in_range_zeros.
Qed.

(** In a completion the first cell would have to be 2, which leaves
    nothing for the second. *)
Lemma dead_end_no_completion : ¬ has_completion dead_end.
Proof.
  intros (s & Hwf & Hsolved & Hext).
  destruct (solved_elim s Hsolved) as (Hfull & Hvalid & _).
  destruct Hsolved as (Hdigit & _).
  assert (∀ r c v, r < 9 → c < 9 → v ≠ 0%Z → cell dead_end r c = v → cell s r c = v)
    as Hgiven.
  { intros r c v Hr Hc Hv Hcell. rewrite <- Hcell. apply Hext; [done..|congruence]. }
  assert (∀ r c r' c', r < 9 → c < 9 → r' < 9 → c' < 9 → peer r c r' c' →
                       (r', c') ≠ (r, c) → cell s r c ≠ cell s r' c') as Hdiffer.
  { intros r c r' c' Hr Hc Hr' Hc' Hpeer Hne Heq.
    destruct (Hvalid r c r' c') as [-> ->]; [done..|by apply Hfull|done|done|done]. }
  assert (∀ c v, c < 9 → v ≠ 0%Z → cell dead_end 0 c = v → c ≠ 0 → cell s 0 0 ≠ v)
    as Hrow0.
  { intros c v Hc Hv Hcell Hne. rewrite <- (Hgiven 0 c v) by (done || lia).
    apply Hdiffer; [lia..|by left|congruence]. }
  assert (cell s 0 0 = 2%Z) as Hfirst.
  { pose proof (Hdigit 0 0 ltac:(lia) ltac:(lia)).
    pose proof (Hrow0 2 3%Z ltac:(lia) ltac:(lia) eq_refl ltac:(lia)).
    pose proof (Hrow0 3 4%Z ltac:(lia) ltac:(lia) eq_refl ltac:(lia)).
    pose proof (Hrow0 4 5%Z ltac:(lia) ltac:(lia) eq_refl ltac:(lia)).
    pose proof (Hrow0 5 6%Z ltac:(lia) ltac:(lia) eq_refl ltac:(lia)).
    pose proof (Hrow0 6 7%Z ltac:(lia) ltac:(lia) eq_refl ltac:(lia)).
    pose proof (Hrow0 7 8%Z ltac:(lia) ltac:(lia) eq_refl ltac:(lia)).
    pose proof (Hrow0 8 9%Z ltac:(lia) ltac:(lia) eq_refl ltac:(lia)).
    assert (cell s 0 0 ≠ 1%Z).
    { rewrite <- (Hgiven 3 0 1%Z) by (done || lia).
      apply Hdiffer; [lia..|by right; left|congruence]. }
    clear Hgiven Hdiffer Hrow0 Hext Hvalid Hfull Hdigit. lia. }
  assert (∀ c v, c < 9 → v ≠ 0%Z → cell dead_end 0 c = v → c ≠ 1 → cell s 0 1 ≠ v)
    as Hrow1.
  { intros c v Hc Hv Hcell Hne. rewrite <- (Hgiven 0 c v) by (done || lia).
    apply Hdiffer; [lia..|by left|congruence]. }
  pose proof (Hdigit 0 1 ltac:(lia) ltac:(lia)).
  pose proof (Hrow1 2 3%Z ltac:(lia) ltac:(lia) eq_refl ltac:(lia)).
  pose proof (Hrow1 3 4%Z ltac:(lia) ltac:(lia) eq_refl ltac:(lia)).
  pose proof (Hrow1 4 5%Z ltac:(lia) ltac:(lia) eq_refl ltac:(lia)).
  pose proof (Hrow1 5 6%Z ltac:(lia) ltac:(lia) eq_refl ltac:(lia)).
  pose proof (Hrow1 6 7%Z ltac:(lia) ltac:(lia) eq_refl ltac:(lia)).
  pose proof (Hrow1 7 8%Z ltac:(lia) ltac:(lia) eq_refl ltac:(lia)).
  pose proof (Hrow1 8 9%Z ltac:(lia) ltac:(lia) eq_refl ltac:(lia)).
  assert (cell s 0 1 ≠ 1%Z).
  { rewrite <- (Hgiven 6 1 1%Z) by (done || lia).
    apply Hdiffer; [lia..|by right; left|congruence]. }
  assert (cell s 0 1 ≠ 2%Z).
  { rewrite <- Hfirst. apply Hdiffer; [lia..|by left|congruence]. }
  clear Hgiven Hdiffer Hrow0 Hrow1 Hext Hvalid Hfull Hdigit Hfirst. lia.
Qed.

Lemma dead_end_fails : solve_grid 82 dead_end = Ok (false, dead_end).
Proof. vm_compute. reflexivity. Qed.
End Samples.

(** ** Depth of the solver *)

Lemma solvable_any depth depth' g :
  wf g → 82 ≤ depth' → solvable depth g → solvable depth' g.
Proof.
  intros Hwf Hdepth' [s Hs].
  destruct (solve_grid_total depth' g Hwf) as [out Hout].
  { pose proof (count_zeros_le g Hwf). lia. }
  destruct (decide (depth' ≤ depth)) as [Hle|Hgt].
  - exists s. rewrite Hout. f_equal.
    apply (solve_grid_mono depth' depth) in Hout; [congruence|done].
  - exists s. apply (solve_grid_mono depth depth'); [lia|done].
Qed.

(** * The claims *)

(** C1.  Whenever [fill_grid], started on the all-zero grid, returns
    true, the grid it leaves has the shape (9, 9), every cell of it is a
    digit from 1 to 9, and every row, every column and every 3x3 block
    is a permutation of the digits 1..9.  This holds for every random
    source, every number of earlier draws and every recursion budget. *)
Theorem fill_grid_solved (R : rng) (depth t : nat) (g' : grid) (t' : nat) :
  fill_grid R depth zeros t = Ok (true, g', t') → wf g' ∧ solved g'.
Proof.
  intros Hfill.
  destruct (fill_grid_sound R depth zeros t true g' t' Hfill wf_zeros zeros_not_full)
    as (Hwf & _ & Htrue & Hinv).
  destruct (Htrue eq_refl) as [Hfull _].
  destruct (Hinv valid_zeros in_range_zeros) as [Hvalid Hrange].
  split; [done|]. by apply solved_intro.
Qed.

Lemma fill_grid_solved_witness : wf sample_solution ∧ solved sample_solution.
Proof.
  apply (fill_grid_solved rng_low 82 0 sample_solution 391).
  vm_compute. reflexivity.
Defined.

(** C2.  With a recursion budget of at least 82 and enough fuel for the
    810 attempts, [generate_sudoku] returns, and [solve_grid] run on a
    copy of the puzzle it returns answers true, for every random source,
    every difficulty and every recursion budget of that last run that
    is at least 82. *)
Theorem generate_sudoku_solvable (R : rng) (depth fuel depth' : nat)
    (difficulty : string) (w : world) :
  82 ≤ depth → max_attempts ≤ fuel → 82 ≤ depth' →
  ∃ data w' grid_copy w'' w''',
    generate_sudoku R depth fuel difficulty w = Ok (data, w') ∧
    copy w' (puzzle data) = Ok (grid_copy, w'') ∧
    call_solve_grid depth' w'' grid_copy = Ok (true, w''').
Proof.
  intros Hdepth Hfuel Hdepth'.
  destruct (generate_sudoku_spec R depth fuel difficulty w Hdepth Hfuel)
    as (filled & gs & t & count' & attempts' & w' & gp & Hfill & _ & Hgen & Hpost &
        Hs & Hp & Hwfp & _ & _ & _ & Hsolv & _).
  assert (solvable depth' gp) as [s Hsolve].
  { destruct Hsolv as [->|Hsolv]; [|by apply (solvable_any depth)].
    destruct Hpost as (Hwfs & Hfalse & Htrue & _). destruct filled.
    - destruct (Htrue eq_refl) as [Hfull _]. apply solvable_full; [done..|lia].
    - rewrite (Hfalse eq_refl). by apply solvable_zeros. }
  eexists _, w', _, _, _. split_and!; [exact Hgen|by apply copy_new|].
  cbn [puzzle]. apply (call_solve_grid_run depth' _ _ gp true s); [|done].
  cbn [heap]. by apply list_lookup_middle.
Qed.

Lemma generate_sudoku_solvable_witness :
  ∃ data w' grid_copy w'' w''',
    generate_sudoku rng_low 82 810 "Easy" fresh_world = Ok (data, w') ∧
    copy w' (puzzle data) = Ok (grid_copy, w'') ∧
    call_solve_grid 82 w'' grid_copy = Ok (true, w''').
Proof.
  apply (generate_sudoku_solvable rng_low 82 810 82 "Easy" fresh_world);
    [lia|unfold max_attempts; lia|lia].
Defined.

(** C3, as the code has it.  On a 9x9 grid and for a cell [(r, c)] of
    it, [is_safe] returns false exactly when [v] occurs in row [r], in
    column [c] or in the 3x3 block with the bounds
    [r - r%3 .. r - r%3 + 3] and [c - c%3 .. c - c%3 + 3], the cell
    [(r, c)] itself included, and returns true otherwise.  When the cell
    [(r, c)] does not hold [v], that is the same as [v] occurring
    in another cell of the row, the column or the block. *)
Theorem is_safe_occurs (g : grid) (r c : nat) (v : Z) :
  wf g → r < 9 → c < 9 →
  (is_safe g r c v = Ok false ↔ occurs g r c v) ∧
  (is_safe g r c v = Ok true ↔ ¬ occurs g r c v) ∧
  (cell g r c ≠ v → (occurs g r c v ↔ occurs_elsewhere g r c v)).
Proof.
  intros Hwf Hr Hc.
  destruct (is_safe_spec g r c v Hwf Hr Hc) as (b & Hb & Hocc). split_and!.
  - rewrite Hb, <- Hocc. split; congruence.
  - rewrite Hb, <- Hocc. destruct b; split; congruence.
  - intros Hne. split.
    + intros (r' & c' & Hr' & Hc' & Hpeer & Hv). exists r', c'.
      split_and!; [done..| |done|done]. intros [= -> ->]. done.
    + intros (r' & c' & Hr' & Hc' & _ & Hpeer & Hv). by exists r', c'.
Qed.

Lemma is_safe_occurs_witness :
  (is_safe five_at_origin 0 0 5 = Ok false ↔ occurs five_at_origin 0 0 5) ∧
  (is_safe five_at_origin 0 0 5 = Ok true ↔ ¬ occurs five_at_origin 0 0 5) ∧
  (cell five_at_origin 0 0 ≠ 5%Z →
   (occurs five_at_origin 0 0 5 ↔ occurs_elsewhere five_at_origin 0 0 5)).
Proof.
  apply (is_safe_occurs five_at_origin 0 0 5); [|lia|lia].
  split; [reflexivity|]. unfold five_at_origin, zeros; simpl. repeat constructor.
Defined.

(** C3, as the claim states it, fails: on the empty 9x9 grid with a 5 in
    cell (0, 0), [is_safe] at (0, 0) with the value 5 returns false
    although 5 occurs in no other cell. *)
Lemma is_safe_elsewhere_counterexample :
  wf five_at_origin ∧ (1 ≤ 5 ≤ 9)%Z ∧
  is_safe five_at_origin 0 0 5 = Ok false ∧
  ¬ occurs_elsewhere five_at_origin 0 0 5.
Proof.
  split_and!; [apply wf_five_at_origin|lia..|reflexivity|].
  intros (r' & c' & Hr' & Hc' & Hne & _ & Hv).
  rewrite five_at_origin_upd, cell_upd_ne, cell_zeros in Hv;
    [done|apply wf_zeros|lia|lia|done].
Qed.

(** C4, as the code has it.  On every 9x9 grid and with a recursion
    budget of at least 82, [solve_grid] returns without raising; when it
    answers false the grid is exactly as it was before the call; and it
    answers false when the grid holds only 0 and digits, satisfies the
    puzzle invariant and has no completion. *)
Theorem solve_grid_restores (depth : nat) (g : grid) :
  wf g → 82 ≤ depth →
  ∃ b g',
    solve_grid depth g = Ok (b, g') ∧
    (b = false → g' = g) ∧
    (valid g → in_range g → ¬ has_completion g → b = false).
Proof.
  intros Hwf Hdepth.
  destruct (solve_grid_total depth g Hwf) as [[b g'] Hrun].
  { pose proof (count_zeros_le g Hwf). lia. }
  destruct (solve_grid_sound depth g b g' Hrun Hwf) as (Hwf' & Hfalse & Htrue & Hinv).
  exists b, g'. split_and!; [done..|].
  intros Hvalid Hrange Hnone. destruct b; [|done].
  destruct (Htrue eq_refl) as [Hfull Hext]. destruct (Hinv Hvalid Hrange) as [Hvalid' Hrange'].
  destruct Hnone. exists g'. split_and!; [done| |done]. by apply solved_intro.
Qed.

Lemma solve_grid_restores_witness :
  valid dead_end ∧ in_range dead_end ∧ ¬ has_completion dead_end ∧
  solve_grid 82 dead_end = Ok (false, dead_end) ∧
  ∃ b g',
    solve_grid 82 dead_end = Ok (b, g') ∧
    (b = false → g' = dead_end) ∧
    (valid dead_end → in_range dead_end → ¬ has_completion dead_end → b = false).
Proof.
  split_and!;
    [apply valid_dead_end|apply in_range_dead_end|apply dead_end_no_completion|
     vm_compute; reflexivity|].
  apply (solve_grid_restores 82 dead_end); [|lia].
  split; [reflexivity|]. unfold dead_end; simpl. repeat constructor.
Defined.

(** C4, as the claim states it, fails: the 9x9 grid of ones has no
    completion, and [solve_grid] answers true on it. *)
Lemma solve_grid_no_completion_counterexample :
  wf ones ∧ ¬ has_completion ones ∧ solve_grid 82 ones = Ok (true, ones).
Proof.
  split_and!; [apply wf_ones|apply ones_no_completion|]. vm_compute. reflexivity.
Qed.

(** C5.  On a completely filled 9x9 array, for every target count and
    every random source, [remove_numbers] returns without raising, has
    made at most 810 attempts, and leaves at most [count] empty cells
    (none when [count] is not positive): the number of empty cells is
    what was taken off the count.  The loop is left because the count
    is used up or because the 810 attempts are. *)
Theorem remove_numbers_bounded (R : rng) (depth fuel l : nat) (count : Z)
    (w : world) (g : grid) :
  heap w !! l = Some g → wf g → full g → 82 ≤ depth → max_attempts ≤ fuel →
  ∃ count' attempts' w' g',
    remove_numbers R depth fuel l count w = Ok (count', attempts', w') ∧
    attempts' ≤ 810 ∧
    heap w' !! l = Some g' ∧ wf g' ∧
    (Z.of_nat (count_zeros g') ≤ Z.max 0 count)%Z ∧
    (Z.of_nat (count_zeros g') = Z.max 0 count - Z.max 0 count')%Z ∧
    ((count' ≤ 0)%Z ∨ attempts' = 810).
Proof.
  intros Hl Hwf Hfull Hdepth Hfuel.
  destruct (remove_numbers_spec R depth fuel l count w g Hl Hwf Hdepth Hfuel)
    as (count' & attempts' & w' & g' & Hrun & Hl' & Hwf' & _ & _ & Hzeros & Hatt & _ &
        Hexit).
  rewrite (count_zeros_full g Hwf Hfull) in Hzeros. unfold max_attempts in *.
  exists count', attempts', w', g'. split_and!; [done|lia|done|done|lia|lia|lia].
Qed.

Lemma remove_numbers_bounded_witness :
  ∃ count' attempts' w' g',
    remove_numbers rng_low 82 810 0 40 (World [sample_solution] 0)
    = Ok (count', attempts', w') ∧
    attempts' ≤ 810 ∧
    heap w' !! 0 = Some g' ∧ wf g' ∧
    (Z.of_nat (count_zeros g') ≤ Z.max 0 40)%Z ∧
    (Z.of_nat (count_zeros g') = Z.max 0 40 - Z.max 0 count')%Z ∧
    ((count' ≤ 0)%Z ∨ attempts' = 810).
Proof.
  apply (remove_numbers_bounded rng_low 82 810 0 40 (World [sample_solution] 0)
           sample_solution);
    [reflexivity|apply sample_solution_solved| |lia|unfold max_attempts; lia].
  apply solved_elim, sample_solution_solved.
Defined.

(** C6.  [generate_sudoku] runs [fill_grid] on a new all-zero array,
    copies the array it leaves into a new object, and runs
    [remove_numbers] on that copy with the target 40 for Easy, 50 for
    Medium and 60 for Hard; in the store that is returned the solution
    still is the array that [fill_grid] left, the two references differ,
    and the objects that were in the store before are untouched. *)
Theorem generate_sudoku_keeps_solution (R : rng) (depth fuel : nat)
    (difficulty : string) (w : world) :
  82 ≤ depth → max_attempts ≤ fuel →
  ∃ filled gs t count' attempts' data w',
    fill_grid R depth zeros (draws w) = Ok (filled, gs, t) ∧
    heap (filled_world w gs t) !! solution data = Some gs ∧
    heap (filled_world w gs t) !! puzzle data = Some gs ∧
    puzzle data ≠ solution data ∧
    remove_numbers R depth fuel (puzzle data) (removal_target difficulty)
      (filled_world w gs t) = Ok (count', attempts', w') ∧
    generate_sudoku R depth fuel difficulty w = Ok (data, w') ∧
    heap w' !! solution data = Some gs ∧
    (∀ l, l < length (heap w) → heap w' !! l = heap w !! l) ∧
    removal_target "Easy" = 40%Z ∧
    removal_target "Medium" = 50%Z ∧
    removal_target "Hard" = 60%Z.
Proof.
  intros Hdepth Hfuel.
  destruct (generate_sudoku_spec R depth fuel difficulty w Hdepth Hfuel)
    as (filled & gs & t & count' & attempts' & w' & gp & Hfill & Hremove & Hgen & _ &
        Hs & _ & _ & _ & _ & _ & _ & Hold).
  exists filled, gs, t, count', attempts',
    (GameData (S (length (heap w))) (length (heap w))), w'.
  cbn [puzzle solution]. split_and!; [done| | |lia|done..].
  - unfold filled_world; cbn [heap].
    rewrite lookup_app_l by (rewrite length_insert, length_app; simpl; lia).
    apply list_lookup_insert_eq. rewrite length_app; simpl. lia.
  - unfold filled_world; cbn [heap].
    apply list_lookup_middle. rewrite length_insert, length_app; simpl. lia.
Qed.

Lemma generate_sudoku_keeps_solution_witness :
  ∃ filled gs t count' attempts' data w',
    fill_grid rng_low 82 zeros (draws fresh_world) = Ok (filled, gs, t) ∧
    heap (filled_world fresh_world gs t) !! solution data = Some gs ∧
    heap (filled_world fresh_world gs t) !! puzzle data = Some gs ∧
    puzzle data ≠ solution data ∧
    remove_numbers rng_low 82 810 (puzzle data) (removal_target "Hard")
      (filled_world fresh_world gs t) = Ok (count', attempts', w') ∧
    generate_sudoku rng_low 82 810 "Hard" fresh_world = Ok (data, w') ∧
    heap w' !! solution data = Some gs ∧
    (∀ l, l < length (heap fresh_world) → heap w' !! l = heap fresh_world !! l) ∧
    removal_target "Easy" = 40%Z ∧
    removal_target "Medium" = 50%Z ∧
    removal_target "Hard" = 60%Z.
Proof.
  apply (generate_sudoku_keeps_solution rng_low 82 810 "Hard" fresh_world);
    [lia|unfold max_attempts; lia].
Defined.

(** C7.  On a 9x9 grid that satisfies the solved-grid invariant,
    [solve_grid] answers true and leaves every cell as it was. *)
Theorem solve_grid_idempotent (depth : nat) (g : grid) :
  wf g → solved g → solve_grid (S depth) g = Ok (true, g).
Proof.
  intros Hwf Hsolved. destruct (solved_elim g Hsolved) as (Hfull & _).
  cbn [solve_grid]. by rewrite find_empty_None.
Qed.

Lemma solve_grid_idempotent_witness :
  solve_grid 1 sample_solution = Ok (true, sample_solution).
Proof.
  apply (solve_grid_idempotent 0 sample_solution); apply sample_solution_solved.
Defined.

(** C8.  On a 9x9 grid [find_empty_location] returns without raising;
    it returns none exactly when no cell is 0, and it returns [(r, c)]
    exactly when [(r, c)] is the first cell equal to 0 in row-major
    order; its result is determined by the contents of the cells, so
    that two calls on grids with the same cells return the same. *)
Theorem find_empty_location_first (g : grid) :
  wf g →
  (∃ o, find_empty_location g = Ok o) ∧
  (find_empty_location g = Ok None ↔ full g) ∧
  (∀ r c, find_empty_location g = Ok (Some (r, c)) ↔ first_empty g r c) ∧
  (∀ g2, wf g2 → (∀ r c, r < 9 → c < 9 → cell g2 r c = cell g r c) →
         find_empty_location g2 = find_empty_location g).
Proof.
  intros Hwf.
  assert (∀ r c, find_empty_location g = Ok (Some (r, c)) ↔ first_empty g r c) as Hsome.
  { intros r c. split; [by apply find_empty_Some|]. intros Hfirst.
    destruct (find_empty_location_spec g Hwf) as [(r' & c' & Hfind & Hfirst')|[_ Hfull]].
    - by destruct (first_empty_unique g r c r' c' Hfirst Hfirst') as [-> ->].
    - by destruct (first_empty_not_full g r c Hfirst). }
  assert (find_empty_location g = Ok None ↔ full g) as Hnone.
  { split; [|by apply find_empty_None]. intros Hfind.
    destruct (find_empty_location_spec g Hwf) as [(r' & c' & Hfind' & _)|[_ Hfull]];
      [congruence|done]. }
  split_and!; [|done|done|].
  - destruct (find_empty_location_spec g Hwf) as [(r & c & -> & _)|[-> _]]; eauto.
  - intros g2 Hwf2 Hsame.
    destruct (find_empty_location_spec g2 Hwf2) as [(r & c & -> & Hfirst)|[-> Hfull]];
      symmetry.
    + apply Hsome. destruct Hfirst as (Hr & Hc & Hz & Hbefore).
      split_and!; [done|done|by rewrite <- Hsame|].
      intros r' c' Hr' Hc' Hlt. rewrite <- Hsame by done. by apply Hbefore.
    + apply Hnone. intros r c Hr Hc. rewrite <- Hsame by done. by apply Hfull.
Qed.

Lemma find_empty_location_first_witness :
  (∃ o, find_empty_location five_at_origin = Ok o) ∧
  (find_empty_location five_at_origin = Ok None ↔ full five_at_origin) ∧
  (∀ r c, find_empty_location five_at_origin = Ok (Some (r, c))
          ↔ first_empty five_at_origin r c) ∧
  (∀ g2, wf g2 → (∀ r c, r < 9 → c < 9 → cell g2 r c = cell five_at_origin r c) →
         find_empty_location g2 = find_empty_location five_at_origin).
Proof.
  apply (find_empty_location_first five_at_origin).
  split; [reflexivity|]. unfold five_at_origin, zeros; simpl. repeat constructor.
Defined.

(** C9.  In every output of [generate_sudoku], every cell of the puzzle
    is 0 or equal to the same cell of the solution. *)
Theorem generate_sudoku_puzzle_of_solution (R : rng) (depth fuel : nat)
    (difficulty : string) (w : world) :
  82 ≤ depth → max_attempts ≤ fuel →
  ∃ data w' gp gs,
    generate_sudoku R depth fuel difficulty w = Ok (data, w') ∧
    heap w' !! puzzle data = Some gp ∧
    heap w' !! solution data = Some gs ∧
    wf gp ∧ wf gs ∧
    ∀ r c, r < 9 → c < 9 → cell gp r c = 0%Z ∨ cell gp r c = cell gs r c.
Proof.
  intros Hdepth Hfuel.
  destruct (generate_sudoku_spec R depth fuel difficulty w Hdepth Hfuel)
    as (filled & gs & t & count' & attempts' & w' & gp & _ & _ & Hgen & Hpost &
        Hs & Hp & Hwfp & Hext & _).
  exists (GameData (S (length (heap w))) (length (heap w))), w', gp, gs.
  cbn [puzzle solution]. split_and!; [done..|apply Hpost|].
  intros r c Hr Hc. destruct (decide (cell gp r c = 0%Z)) as [Hz|Hnz]; [by left|].
  right. symmetry. by apply Hext.
Qed.

Lemma generate_sudoku_puzzle_of_solution_witness :
  ∃ data w' gp gs,
    generate_sudoku rng_low 82 810 "Medium" fresh_world = Ok (data, w') ∧
    heap w' !! puzzle data = Some gp ∧
    heap w' !! solution data = Some gs ∧
    wf gp ∧ wf gs ∧
    ∀ r c, r < 9 → c < 9 → cell gp r c = 0%Z ∨ cell gp r c = cell gs r c.
Proof.
  apply (generate_sudoku_puzzle_of_solution rng_low 82 810 "Medium" fresh_world);
    [lia|unfold max_attempts; lia].
Defined.

(** C10.  Called on a 9x9 grid without an empty cell, [fill_grid]
    returns false without drawing a random number, and the grid it
    leaves is the one it was given with cell (8, 8) set to 0. *)
Theorem fill_grid_complete_grid (R : rng) (depth : nat) (g : grid) (t : nat) :
  wf g → full g →
  fill_grid R (S depth) g t = Ok (false, upd g 8 8 0, t) ∧
  cell (upd g 8 8 0) 8 8 = 0%Z ∧
  (∀ r c, r < 9 → c < 9 → (r, c) ≠ (8, 8) → cell (upd g 8 8 0) r c = cell g r c).
Proof.
  intros Hwf Hfull. split_and!.
  - by apply fill_grid_full.
  - apply cell_upd_eq; [done|lia..].
  - intros r c Hr Hc Hne. apply cell_upd_ne; [done|lia..|done].
Qed.

Lemma fill_grid_complete_grid_witness :
  fill_grid rng_low 1 sample_solution 0 = Ok (false, upd sample_solution 8 8 0, 0) ∧
  cell (upd sample_solution 8 8 0) 8 8 = 0%Z ∧
  (∀ r c, r < 9 → c < 9 → (r, c) ≠ (8, 8) →
          cell (upd sample_solution 8 8 0) r c = cell sample_solution r c).
Proof.
  apply (fill_grid_complete_grid rng_low 0 sample_solution 0).
  - apply sample_solution_solved.
  - apply solved_elim, sample_solution_solved.
Defined.

(** * Further properties of the engine *)

(** ** Equal cells, equal grids *)

Lemma grid_ext (g g' : grid) :
  wf g → wf g' → (∀ r c, r < 9 → c < 9 → cell g r c = cell g' r c) → g = g'.
Proof.
  intros Hwf Hwf' Hcells. apply list_eq_same_length with 9; [apply Hwf'|apply Hwf|].
  intros r row row' Hr Hrow Hrow'.
  destruct (wf_row g r Hwf Hr) as (x & Hx & Hlen).
  destruct (wf_row g' r Hwf' Hr) as (x' & Hx' & Hlen').
  assert (x = row) as -> by congruence. assert (x' = row') as -> by congruence.
  apply list_eq_same_length with 9; [done..|].
  intros c v v' Hc Hv Hv'.
  rewrite <- (cell_lookup g r c row v Hrow Hv).
  rewrite <- (cell_lookup g' r c row' v' Hrow' Hv'). by apply Hcells.
Qed.

(** ** The search is exhaustive *)

Section Complete.
Implicit Types (g s : grid) (r c : nat) (v : Z).

Lemma occurs_elsewhere_conflict g r c v s :
  r < 9 → c < 9 → v ≠ 0%Z → occurs_elsewhere g r c v →
  solved s → extends g s → cell s r c ≠ v.
Proof.
  intros Hr Hc Hv (r' & c' & Hr' & Hc' & Hne & Hpeer & Hcell) Hsolved Hext Hs.
  destruct (solved_elim s Hsolved) as (_ & Hvalid & _).
  assert (cell s r' c' = v) as Hs' by (rewrite <- Hcell; apply Hext; congruence).
  destruct (Hvalid r c r' c') as [-> ->]; [done..|congruence|congruence|done|done].
Qed.

Lemma occurs_not_here g r c v :
  cell g r c ≠ v → occurs g r c v → occurs_elsewhere g r c v.
Proof.
  intros Hne (r' & c' & Hr' & Hc' & Hpeer & Hcell). exists r', c'.
  split_and!; [done..| |done|done]. intros [= -> ->]. done.
Qed.

Lemma extends_placed g r c s :
  wf g → r < 9 → c < 9 → extends g s → extends (upd g r c (cell s r c)) s.
Proof.
  intros Hwf Hr Hc Hext a b Ha Hb. rewrite cell_upd by done.
  case_decide as Heq; [by destruct Heq as [-> ->]|by apply Hext].
Qed.

Lemma solved_digit s r c : solved s → r < 9 → c < 9 → cell s r c ∈ seqZ 1 9.
Proof.
  intros (Hdigit & _) Hr Hc. apply elem_of_seqZ. specialize (Hdigit r c Hr Hc). lia.
Qed.

Lemma is_safe_false g r c v :
  wf g → r < 9 → c < 9 → is_safe g r c v = Ok false → occurs g r c v.
Proof.
  intros Hwf Hr Hc Hsafe. destruct (is_safe_spec g r c v Hwf Hr Hc) as (b & Hb & Hocc).
  apply Hocc. congruence.
Qed.

Section SolveNumbers.
Variable rec : grid → res (bool * grid).
Hypothesis rec_sound : ∀ g b g', rec g = Ok (b, g') → wf g → search_post g b g'.
Hypothesis rec_complete : ∀ g g', rec g = Ok (false, g') → wf g → ¬ has_completion g.

(** A failed loop has excluded every number of its list. *)
Lemma solve_numbers_complete row col numbers g g' s :
  wf g → row < 9 → col < 9 → cell g row col = 0%Z → Forall digit numbers →
  solve_numbers rec row col numbers g = Ok (false, g') →
  wf s → solved s → extends g s → cell s row col ∉ numbers.
Proof.
  intros Hwf Hrow Hcol Hz Hnumbers Hrun Hwfs Hsolved Hext. revert Hrun.
  induction Hnumbers as [|number rest Hdigit _ IH]; simpl.
  { intros _. apply not_elem_of_nil. }
  intros (safe & Hsafe & Hrun)%bind_Ok. apply not_elem_of_cons.
  assert (number ≠ 0%Z) as Hnz by (unfold digit in Hdigit; lia).
  destruct safe.
  - rewrite set_upd in Hrun by done. simpl in Hrun.
    apply bind_Ok in Hrun as ([solved g2] & Hrec & Hrun).
    destruct solved; [done|].
    pose proof (rec_sound _ _ _ Hrec (wf_upd g row col number Hwf)) as (_ & Hrestore & _).
    rewrite (Hrestore eq_refl) in Hrun.
    rewrite set_upd in Hrun by (done || by apply wf_upd). simpl in Hrun.
    rewrite upd_upd, <- Hz, upd_cell in Hrun by done.
    split; [|by apply IH]. intros Heq.
    apply (rec_complete _ _ Hrec (wf_upd g row col number Hwf)).
    exists s. split_and!; [done..|]. rewrite <- Heq. by apply extends_placed.
  - split; [|by apply IH].
    apply (occurs_elsewhere_conflict g row col number s); [done..| |done|done].
    apply occurs_not_here; [congruence|]. by apply is_safe_false.
Qed.
End SolveNumbers.

Lemma solve_grid_complete depth g g' :
  solve_grid depth g = Ok (false, g') → wf g → ¬ has_completion g.
Proof.
  revert g g'. induction depth as [|depth IH]; intros g g'; [done|].
  rewrite solve_grid_unfold. intros (location & Hfind & Hrun)%bind_Ok Hwf.
  destruct location as [[row col]|]; [|done].
  destruct (find_empty_Some g row col Hwf Hfind) as (Hrow & Hcol & Hz & _).
  intros (s & Hwfs & Hsolved & Hext).
  apply (solve_numbers_complete (solve_grid depth) (solve_grid_sound depth) IH
           row col (seqZ 1 9) g g' s);
    [done|done|done|done|exact digits_digit|done|done|done|done|].
  by apply solved_digit.
Qed.

Section FillNumbers.
Variable rec : grid → nat → res (bool * grid * nat).
Hypothesis rec_sound :
  ∀ g t b g' t', rec g t = Ok (b, g', t') → wf g → ¬ full g → search_post g b g'.
Hypothesis rec_complete :
  ∀ g t g' t', rec g t = Ok (false, g', t') → wf g → ¬ full g → ¬ has_completion g.

Lemma fill_numbers_complete g0 row col numbers g t g' t' s :
  wf g0 → row < 9 → col < 9 → cell g0 row col = 0%Z →
  Forall digit numbers → NoDup numbers →
  wf g → upd g row col 0 = g0 → cell g row col ∉ numbers →
  fill_numbers rec row col numbers g t = Ok (false, g', t') →
  wf s → solved s → extends g0 s → cell s row col ∉ numbers.
Proof.
  intros Hwf0 Hrow Hcol Hz Hnumbers Hnodup Hwf Hoff Hcell Hrun Hwfs Hsolved Hext.
  revert g t Hwf Hoff Hcell Hrun Hnodup.
  induction Hnumbers as [|number rest Hdigit _ IH];
    intros g t Hwf Hoff Hcell Hrun Hnodup; simpl in Hrun.
  { apply not_elem_of_nil. }
  apply NoDup_cons in Hnodup as [Hfresh Hnodup].
  apply not_elem_of_cons in Hcell as [Hne Hcell].
  apply bind_Ok in Hrun as (safe & Hsafe & Hrun). apply not_elem_of_cons.
  assert (number ≠ 0%Z) as Hnz by (unfold digit in Hdigit; lia).
  destruct safe.
  - rewrite set_upd in Hrun by done. simpl in Hrun.
    set (g1 := upd g row col number) in *.
    assert (wf g1) as Hwf1 by by apply wf_upd.
    assert (g1 = upd g0 row col number) as Hg1 by (by rewrite <- Hoff, upd_upd).
    destruct (find_empty_location_spec g1 Hwf1)
      as [(r & c & Hfind & Hfirst)|[Hfind Hfull]]; rewrite Hfind in Hrun; simpl in Hrun;
      [|done].
    apply bind_Ok in Hrun as ([[filled g2] t2] & Hrec & Hrun).
    destruct filled; [done|].
    pose proof (first_empty_not_full _ _ _ Hfirst) as Hnotfull.
    destruct (rec_sound _ _ _ _ _ Hrec Hwf1 Hnotfull) as (_ & Hrestore & _).
    rewrite (Hrestore eq_refl) in Hrun. split.
    + intros Heq. apply (rec_complete _ _ _ _ Hrec Hwf1 Hnotfull).
      exists s. split_and!; [done..|]. rewrite Hg1, <- Heq. by apply extends_placed.
    + apply (IH g1 t2); [done| | |done|done].
      * unfold g1. by rewrite upd_upd.
      * unfold g1. by rewrite cell_upd_eq.
  - split; [|by apply (IH g t)].
    apply (occurs_elsewhere_conflict g0 row col number s); [done..| |done|done].
    destruct (occurs_not_here g row col number Hne (is_safe_false _ _ _ _ Hwf Hrow Hcol Hsafe))
      as (r' & c' & Hr' & Hc' & Hne' & Hpeer & Hv).
    exists r', c'. split_and!; [done..|].
    by rewrite <- Hoff, cell_upd_ne.
Qed.
End FillNumbers.

Lemma fill_grid_complete (R : rng) depth g t g' t' :
  fill_grid R depth g t = Ok (false, g', t') → wf g → ¬ full g → ¬ has_completion g.
Proof.
  revert g t g' t'. induction depth as [|depth IH]; intros g t g' t'; [done|].
  cbn [fill_grid]. intros Hrun Hwf Hnotfull.
  destruct (fill_grid_scan R (fill_grid R depth) g t Hwf)
    as [(row & col & Hfirst & Heq)|[Hfull _]]; [|done].
  rewrite Heq in Hrun. unfold fill_found in Hrun.
  apply bind_Ok in Hrun as ([[filled g1] t1] & Hloop & Hrun).
  destruct filled; [done|]. destruct Hfirst as (Hrow & Hcol & Hz & _).
  intros (s & Hwfs & Hsolved & Hext).
  apply (fill_numbers_complete (fill_grid R depth) (fill_grid_sound R depth) IH
           g row col (shuffle_at R t (seqZ 1 9)) g (S t) g1 t1 s);
    [done|done|done|done|apply shuffled_digits| |done|by rewrite <- Hz, upd_cell| |
     done|done|done|done|].
  - rewrite (shuffle_perm R t). apply NoDup_seqZ.
  - rewrite Hz. intros Hin. rewrite (shuffle_perm R t) in Hin.
    apply elem_of_seqZ in Hin. lia.
  - rewrite (shuffle_perm R t). by apply solved_digit.
Qed.

Lemma zeros_completion : has_completion zeros.
Proof.
  exists sample_solution. destruct sample_solution_solved as [Hwf Hsolved].
  split_and!; [done..|]. intros r c _ _ Hnz. by rewrite cell_zeros in Hnz.
Qed.
End Complete.

(** ** The solution that the solver finds *)

Section Least.
Implicit Types (g s : grid) (r c : nat) (v : Z).

Lemma digits_increasing : StronglySorted Z.lt (seqZ 1 9).
Proof.
  change (seqZ 1 9) with [1; 2; 3; 4; 5; 6; 7; 8; 9]%Z.
  repeat (constructor; [|repeat constructor; lia]). constructor.
Qed.

Lemma lex_le_first g row col s s' :
  wf g → first_empty g row col → extends g s → extends g s' →
  (cell s row col < cell s' row col)%Z → lex_le s s'.
Proof.
  intros Hwf (Hrow & Hcol & Hz & Hbefore) Hs Hs' Hlt. right. exists row, col.
  split_and!; [done..|]. intros r' c' Hr' Hc' Hearlier.
  specialize (Hbefore r' c' Hr' Hc' Hearlier). by rewrite Hs, Hs'.
Qed.

Section Numbers.
Variable rec : grid → res (bool * grid).
Hypothesis rec_sound : ∀ g b g', rec g = Ok (b, g') → wf g → search_post g b g'.
Hypothesis rec_complete : ∀ g g', rec g = Ok (false, g') → wf g → ¬ has_completion g.
Hypothesis rec_least :
  ∀ g s, rec g = Ok (true, s) → wf g →
    ∀ s', wf s' → solved s' → extends g s' → lex_le s s'.

Lemma solve_numbers_least row col numbers g s s' :
  wf g → first_empty g row col → Forall digit numbers → StronglySorted Z.lt numbers →
  solve_numbers rec row col numbers g = Ok (true, s) →
  wf s' → solved s' → extends g s' → cell s' row col ∈ numbers → lex_le s s'.
Proof.
  intros Hwf Hfirst Hnumbers Hsorted Hrun Hwfs' Hsolved' Hext'.
  pose proof Hfirst as (Hrow & Hcol & Hz & _). revert Hsorted Hrun.
  induction Hnumbers as [|number rest Hdigit _ IH]; intros Hsorted Hrun Hin.
  { by apply elem_of_nil in Hin. }
  apply StronglySorted_inv in Hsorted as [Hsorted Hless].
  assert (number ≠ 0%Z) as Hnz by (unfold digit in Hdigit; lia).
  simpl in Hrun. apply bind_Ok in Hrun as (safe & Hsafe & Hrun).
  apply elem_of_cons in Hin. destruct safe.
  - rewrite set_upd in Hrun by done. simpl in Hrun.
    apply bind_Ok in Hrun as ([solved g2] & Hrec & Hrun).
    pose proof (rec_sound _ _ _ Hrec (wf_upd g row col number Hwf))
      as (_ & Hrestore & Htrue & _).
    destruct solved.
    + injection Hrun as ->. destruct (Htrue eq_refl) as [_ Hext1].
      destruct Hin as [Heq|Hin].
      * apply (rec_least _ _ Hrec (wf_upd g row col number Hwf)); [done..|].
        rewrite <- Heq. by apply extends_placed.
      * apply (lex_le_first g row col); [done..| |done|].
        { by apply (extends_upd g s row col number). }
        rewrite (Hext1 row col), cell_upd_eq by (done || by rewrite cell_upd_eq).
        by apply (proj1 (Forall_forall _ _) Hless).
    + rewrite (Hrestore eq_refl) in Hrun.
      rewrite set_upd in Hrun by (done || by apply wf_upd). simpl in Hrun.
      rewrite upd_upd, <- Hz, upd_cell in Hrun by done.
      destruct Hin as [Heq|Hin]; [|by apply IH].
      destruct (rec_complete _ _ Hrec (wf_upd g row col number Hwf)).
      exists s'. split_and!; [done..|]. rewrite <- Heq. by apply extends_placed.
  - destruct Hin as [Heq|Hin]; [|by apply IH].
    destruct (occurs_elsewhere_conflict g row col number s'); [done..| |done|done|done].
    apply occurs_not_here; [congruence|]. by apply is_safe_false.
Qed.
End Numbers.

Lemma solve_grid_least depth g s :
  solve_grid depth g = Ok (true, s) → wf g →
  ∀ s', wf s' → solved s' → extends g s' → lex_le s s'.
Proof.
  revert g s. induction depth as [|depth IH]; intros g s; [done|].
  rewrite solve_grid_unfold. intros (location & Hfind & Hrun)%bind_Ok Hwf.
  intros s' Hwfs' Hsolved' Hext'. destruct location as [[row col]|].
  - pose proof (find_empty_Some g row col Hwf Hfind) as Hfirst.
    apply (solve_numbers_least (solve_grid depth) (solve_grid_sound depth)
             (solve_grid_complete depth) IH row col (seqZ 1 9) g);
      [done|done|exact digits_digit|exact digits_increasing|done|done|done|done|].
    apply solved_digit; [done|apply Hfirst..].
  - injection Hrun as <-. left. intros r c Hr Hc. symmetry. apply Hext'; [done..|].
    destruct (find_empty_location_spec g Hwf) as [(r' & c' & Heq & _)|[_ Hfull]];
      [congruence|by apply Hfull].
Qed.
End Least.

(** ** Sub-grids of a solved grid *)

Section SubGrid.
Implicit Types (g s : grid) (r c : nat) (v : Z).

Lemma valid_extends g s : extends g s → valid s → valid g.
Proof.
  intros Hext Hvalid r c r' c' Hr Hc Hr' Hc' Hnz Heq Hpeer.
  apply Hvalid; [done..| | |done].
  - by rewrite Hext.
  - rewrite !Hext by (done || congruence). done.
Qed.

Lemma in_range_extends g s : extends g s → in_range s → in_range g.
Proof.
  intros Hext Hrange r c Hr Hc. destruct (decide (cell g r c = 0%Z)) as [->|Hnz]; [lia|].
  rewrite <- Hext by done. by apply Hrange.
Qed.

Lemma has_completion_clear g r c :
  wf g → r < 9 → c < 9 → has_completion g → has_completion (upd g r c 0).
Proof.
  intros Hwf Hr Hc (s & Hwfs & Hsolved & Hext). exists s. split_and!; [done..|].
  eapply extends_trans; [by apply extends_clear|done].
Qed.

Lemma has_completion_valid g : has_completion g → valid g ∧ in_range g.
Proof.
  intros (s & _ & Hsolved & Hext). destruct (solved_elim s Hsolved) as (_ & Hvalid & Hrange).
  split; [by eapply valid_extends|by eapply in_range_extends].
Qed.

Lemma solved_completion s : wf s → solved s → has_completion s.
Proof. intros Hwf Hsolved. exists s. split_and!; [done..|apply extends_refl]. Qed.

Lemma solved_row_has s r v :
  solved s → r < 9 → digit v → ∃ c, c < 9 ∧ cell s r c = v.
Proof.
  intros (_ & Hrows & _) Hr Hv.
  assert (v ∈ row_cells s r) as Hin.
  { rewrite (Hrows r Hr). apply elem_of_seqZ. unfold digit in Hv. lia. }
  apply list_elem_of_fmap in Hin as (c & -> & Hc%elem_of_seq). exists c. split; [lia|done].
Qed.

(** A solved grid with one cell emptied has one completion only. *)
Lemma single_gap_unique s r c s' :
  wf s → solved s → r < 9 → c < 9 → wf s' → solved s' → extends (upd s r c 0) s' →
  s' = s.
Proof.
  intros Hwf Hsolved Hr Hc Hwf' Hsolved' Hext.
  destruct (solved_elim s Hsolved) as (Hfull & _).
  destruct (solved_elim s' Hsolved') as (_ & Hvalid' & _).
  assert (∀ a b, a < 9 → b < 9 → (a, b) ≠ (r, c) → cell s' a b = cell s a b) as Hoff.
  { intros a b Ha Hb Hne. rewrite <- (cell_upd_ne s r c 0 a b) by done.
    apply Hext; [done..|]. rewrite cell_upd_ne by done. by apply Hfull. }
  apply grid_ext; [done..|]. intros a b Ha Hb.
  destruct (decide ((a, b) = (r, c))) as [[= -> ->]|Hne]; [|by apply Hoff].
  destruct (solved_row_has s r (cell s' r c)) as (c' & Hc' & Hcell); [done..| |].
  { destruct Hsolved' as (Hdigit & _). by apply Hdigit. }
  destruct (decide (c' = c)) as [->|Hcne]; [done|].
  destruct (Hvalid' r c r c') as [_ Heq]; [done..| | |by left|congruence].
  - destruct Hsolved' as (Hdigit & _). specialize (Hdigit r c Hr Hc). lia.
  - rewrite (Hoff r c') by (done || congruence). done.
Qed.
End SubGrid.

(** ** Removal, attempt by attempt *)

Section RemoveRun.
Variable R : rng.
Implicit Types (w : world) (g : grid) (l : nat).

(** What one attempt does, by the cell it draws and by the answer of
    the solver. *)
Lemma remove_attempt_run depth l count w g :
  heap w !! l = Some g → wf g → 82 ≤ depth →
  ∃ count' w' g',
    remove_attempt R depth l count w = Ok (count', w') ∧
    heap w' !! l = Some g' ∧ wf g' ∧ frame l w w' ∧
    draws w' = S (S (draws w)) ∧
    length (heap w') ≤ S (length (heap w)) ∧
    ((cell g (drawn_cell R (draws w)).1 (drawn_cell R (draws w)).2 = 0%Z ∧
      count' = count ∧ g' = g)
     ∨ (cell g (drawn_cell R (draws w)).1 (drawn_cell R (draws w)).2 ≠ 0%Z ∧
        solvable depth (upd g (drawn_cell R (draws w)).1 (drawn_cell R (draws w)).2 0) ∧
        count' = (count - 1)%Z ∧
        g' = upd g (drawn_cell R (draws w)).1 (drawn_cell R (draws w)).2 0)
     ∨ (cell g (drawn_cell R (draws w)).1 (drawn_cell R (draws w)).2 ≠ 0%Z ∧
        (∃ s, solve_grid depth
                (upd g (drawn_cell R (draws w)).1 (drawn_cell R (draws w)).2 0)
              = Ok (false, s)) ∧
        count' = count ∧ g' = g)).
Proof.
  intros Hl Hwf Hdepth. unfold remove_attempt, randint, drawn_cell. cbn [heap draws fst snd].
  set (row := randint_at R (draws w) 0 8).
  set (col := randint_at R (S (draws w)) 0 8).
  assert (row < 9) as Hrow by apply randint_cell.
  assert (col < 9) as Hcol by apply randint_cell.
  set (w2 := World (heap w) (S (S (draws w)))).
  assert (heap w2 !! l = Some g) as Hl2 by done.
  rewrite (load_cell w2 l g) by done. cbn [mbind res_bind].
  assert (l < length (heap w)) as Hlt by by eapply lookup_lt_Some.
  destruct (Z.eqb_spec (cell g row col) 0) as [Hz|Hnz]; cbn [negb].
  { exists count, w2, g.
    split_and!; [done..|by split|done|unfold w2; cbn [heap]; lia|by left]. }
  rewrite (store_upd w2 l g) by done. cbn [mbind res_bind].
  set (g1 := upd g row col 0).
  assert (wf g1) as Hwf1 by by apply wf_upd.
  set (w3 := assign w2 l g1).
  assert (heap w3 !! l = Some g1) as Hl3 by by apply list_lookup_insert_eq.
  rewrite (copy_new w3 l g1) by done. cbn [mbind res_bind].
  set (w4 := World (heap w3 ++ [g1]) (draws w3)).
  assert (length (heap w3) = length (heap w)) as Hlen3 by apply length_insert.
  assert (heap w4 !! length (heap w3) = Some g1) as Hl4 by by apply list_lookup_middle.
  destruct (solve_grid_total depth g1) as [[solved s] Hsolve]; [done|..].
  { pose proof (count_zeros_le g1 Hwf1). lia. }
  rewrite (call_solve_grid_run depth w4 _ g1 solved s) by done. cbn [mbind res_bind].
  set (w5 := assign w4 (length (heap w3)) s).
  assert (heap w5 !! l = Some g1) as Hl5.
  { unfold w5, assign, w4; cbn [heap].
    rewrite list_lookup_insert_ne by lia. by rewrite lookup_app_l by lia. }
  assert (length (heap w5) = S (length (heap w))) as Hlen5.
  { unfold w5, assign, w4; cbn [heap]. rewrite length_insert, length_app, Hlen3.
    cbn [length]. lia. }
  assert (frame l w w5) as Hframe5.
  { split; [lia|].
    intros l' Hne Hl'. unfold w5, assign, w4; cbn [heap].
    rewrite list_lookup_insert_ne by lia. rewrite lookup_app_l by lia.
    unfold w3, assign; cbn [heap]. by rewrite list_lookup_insert_ne. }
  destruct solved.
  - exists (count - 1)%Z, w5, g1. split_and!; [done..|lia|]. right; left.
    split_and!; [done|by exists s|done|done].
  - rewrite (store_upd w5 l g1) by done. cbn [mbind res_bind].
    unfold g1 at 1. rewrite upd_restore by done.
    exists count, (assign w5 l g), g. split_and!; [done| |done| |done| |].
    + cbn [assign heap]. apply list_lookup_insert_eq. by eapply lookup_lt_Some.
    + destruct Hframe5 as [_ Hother]. split.
      * cbn [assign heap]. rewrite length_insert. lia.
      * intros l' Hne Hl'. cbn [assign heap].
        rewrite list_lookup_insert_ne by done. by apply Hother.
    + cbn [assign heap]. rewrite length_insert. lia.
    + right; right. split_and!; [done|by exists s|done|done].
Qed.

(** The cost of the loop: two draws and at most one new object for each
    attempt. *)
Lemma remove_loop_cost depth fuel l count attempts w g :
  heap w !! l = Some g → wf g → 82 ≤ depth → max_attempts - attempts ≤ fuel →
  ∃ count' attempts' w',
    remove_loop R depth fuel l count attempts w = Ok (count', attempts', w') ∧
    draws w' = draws w + 2 * (attempts' - attempts) ∧
    length (heap w') ≤ length (heap w) + (attempts' - attempts) ∧
    attempts ≤ attempts'.
Proof.
  intros Hl Hwf Hdepth. revert count attempts w g Hl Hwf.
  induction fuel as [|fuel IH]; intros count attempts w g Hl Hwf Hfuel;
    cbn [remove_loop];
    destruct (Z.ltb_spec 0 count) as [Hcount|Hcount];
    destruct (Nat.ltb_spec attempts max_attempts) as [Hatt|Hatt]; cbn [andb];
    try (exists count, attempts, w; split_and!; [done|lia|lia|lia]).
  { lia. }
  destruct (remove_attempt_run depth l count w g Hl Hwf Hdepth)
    as (count1 & w1 & g1 & -> & Hl1 & Hwf1 & _ & Hdraws1 & Hlen1 & _).
  cbn [mbind res_bind].
  destruct (IH count1 (attempts + 1) w1 g1 Hl1 Hwf1 ltac:(lia))
    as (count' & attempts' & w' & -> & Hdraws' & Hlen' & Hatt').
  exists count', attempts', w'. split_and!; [done|lia|lia|lia].
Qed.

(** On an array that can be completed the solver never refuses, so the
    loop does what [remove_unchecked] does. *)
Lemma remove_loop_unchecked depth fuel l count attempts w g g' count' attempts' t' :
  heap w !! l = Some g → wf g → has_completion g → 82 ≤ depth →
  max_attempts - attempts ≤ fuel →
  remove_unchecked R fuel g count attempts (draws w) = (g', count', attempts', t') →
  ∃ w',
    remove_loop R depth fuel l count attempts w = Ok (count', attempts', w') ∧
    heap w' !! l = Some g' ∧ draws w' = t'.
Proof.
  intros Hl Hwf Hcompl Hdepth. revert count attempts w g Hl Hwf Hcompl.
  induction fuel as [|fuel IH]; intros count attempts w g Hl Hwf Hcompl Hfuel;
    cbn [remove_loop remove_unchecked];
    destruct (Z.ltb_spec 0 count) as [Hcount|Hcount];
    destruct (Nat.ltb_spec attempts max_attempts) as [Hatt|Hatt]; cbn [andb];
    try (intros [= <- <- <- <-]; by exists w).
  { lia. }
  destruct (remove_attempt_run depth l count w g Hl Hwf Hdepth)
    as (count1 & w1 & g1 & -> & Hl1 & Hwf1 & _ & Hdraws1 & _ & Hcase).
  cbn [mbind res_bind].
  destruct (drawn_cell R (draws w)) as [row col] eqn:Hcell. cbn [fst snd] in Hcase.
  assert (row < 9 ∧ col < 9) as [Hrow Hcol].
  { unfold drawn_cell in Hcell. injection Hcell as <- <-. split; apply randint_cell. }
  assert (g1 = upd g row col 0 ∧
          count1 = if (cell g row col =? 0)%Z then count else (count - 1)%Z)
    as [-> ->].
  { destruct Hcase as [(Hz & -> & ->)|[(Hnz & _ & -> & ->)|(Hnz & [s Hs] & _)]].
    - pose proof (upd_cell g row col Hwf Hrow Hcol) as Hid. rewrite Hz in Hid.
      by rewrite Hid, Hz.
    - by rewrite (proj2 (Z.eqb_neq _ _) Hnz).
    - destruct (solve_grid_complete depth _ s Hs (wf_upd g row col 0 Hwf)).
      by apply has_completion_clear. }
  rewrite <- Hdraws1. intros Hrun.
  apply (IH _ (attempts + 1) w1 (upd g row col 0)); [done|done| |lia|done].
  by apply has_completion_clear.
Qed.

(** Emptying cells never raises the count, and the count goes down with
    the first attempt when that attempt draws a filled cell. *)
Lemma remove_unchecked_count fuel g count attempts t g' count' attempts' t' :
  remove_unchecked R fuel g count attempts t = (g', count', attempts', t') →
  (count' ≤ count)%Z.
Proof.
  revert g count attempts t. induction fuel as [|fuel IH]; intros g count attempts t;
    cbn [remove_unchecked];
    destruct ((0 <? count)%Z && (attempts <? max_attempts));
    try (intros [= <- <- <- <-]; lia).
  destruct (drawn_cell R t) as [row col]. intros Hrun%IH.
  destruct (cell g row col =? 0)%Z; lia.
Qed.

Lemma remove_unchecked_first fuel g count t g' count' attempts' t' :
  (0 < count)%Z → 0 < fuel →
  cell g (drawn_cell R t).1 (drawn_cell R t).2 ≠ 0%Z →
  remove_unchecked R fuel g count 0 t = (g', count', attempts', t') →
  (count' < count)%Z.
Proof.
  intros Hcount Hfuel Hnz. destruct fuel as [|fuel]; [lia|]. cbn [remove_unchecked].
  rewrite (proj2 (Z.ltb_lt 0 count) Hcount). cbn [andb Nat.ltb Nat.leb max_attempts].
  change (0 <? max_attempts) with true. cbn iota.
  destruct (drawn_cell R t) as [row col]. cbn [fst snd] in Hnz.
  rewrite (proj2 (Z.eqb_neq _ _) Hnz). intros Hrun%remove_unchecked_count. lia.
Qed.
End RemoveRun.

(** ** Indices out of bounds *)

Lemma column_out_of_bounds (g : grid) (c : nat) :
  wf g → 9 ≤ c → column g c = Raise IndexError.
Proof.
  intros [Hlen Hrows] Hc. unfold column.
  destruct g as [|row g]; [done|]. apply Forall_cons in Hrows as [Hrow _].
  cbn [mapM]. rewrite (lookup_ge_None_2 row c) by lia. done.
Qed.

(** * Further theorems *)

(** X1.  On a 9x9 grid of cells 0..9 that satisfies the puzzle
    invariant, [solve_grid] answers true exactly when the grid has a
    completion, and after a true answer the grid is a solved grid that
    keeps every filled cell of the input. *)
Theorem solve_grid_decides (depth : nat) (g : grid) :
  wf g → valid g → in_range g → 82 ≤ depth →
  ∃ b g',
    solve_grid depth g = Ok (b, g') ∧
    (b = true ↔ has_completion g) ∧
    (b = true → wf g' ∧ solved g' ∧ extends g g').
Proof.
  intros Hwf Hvalid Hrange Hdepth.
  destruct (solve_grid_total depth g Hwf) as [[b g'] Hrun].
  { pose proof (count_zeros_le g Hwf). lia. }
  destruct (solve_grid_sound depth g b g' Hrun Hwf) as (Hwf' & _ & Htrue & Hinv).
  destruct (Hinv Hvalid Hrange) as [Hvalid' Hrange'].
  assert (b = true → wf g' ∧ solved g' ∧ extends g g') as Hsolved.
  { intros Hb. destruct (Htrue Hb) as [Hfull Hext]. split_and!; [done| |done].
    by apply solved_intro. }
  exists b, g'. split_and!; [done| |done]. split.
  - intros Hb. exists g'. by apply Hsolved.
  - intros Hcompl. destruct b; [done|].
    by destruct (solve_grid_complete depth g g' Hrun Hwf).
Qed.

Lemma solve_grid_decides_witness :
  ∃ b g',
    solve_grid 82 zeros = Ok (b, g') ∧
    (b = true ↔ has_completion zeros) ∧
    (b = true → wf g' ∧ solved g' ∧ extends zeros g').
Proof.
  apply (solve_grid_decides 82 zeros);
    [apply wf_zeros|apply valid_zeros|apply in_range_zeros|lia].
Defined.

(** X2.  On every 9x9 grid, whether or not its filled cells satisfy the
    puzzle invariant, a true answer of [solve_grid] leaves a grid
    without an empty cell in which every cell that was filled before
    the call holds the value it held. *)
Theorem solve_grid_keeps_givens (depth : nat) (g : grid) (g' : grid) :
  wf g → solve_grid depth g = Ok (true, g') →
  wf g' ∧ full g' ∧ ∀ r c, r < 9 → c < 9 → cell g r c ≠ 0%Z → cell g' r c = cell g r c.
Proof.
  intros Hwf Hrun.
  destruct (solve_grid_sound depth g true g' Hrun Hwf) as (Hwf' & _ & Htrue & _).
  destruct (Htrue eq_refl) as [Hfull Hext]. by split_and!.
Qed.

Lemma solve_grid_keeps_givens_witness :
  wf (upd ones 0 0 2) ∧ full (upd ones 0 0 2) ∧
  ∀ r c, r < 9 → c < 9 → cell (upd ones 0 0 0) r c ≠ 0%Z →
         cell (upd ones 0 0 2) r c = cell (upd ones 0 0 0) r c.
Proof.
  apply (solve_grid_keeps_givens 2 (upd ones 0 0 0) (upd ones 0 0 2)).
  - apply wf_upd, wf_ones.
  - vm_compute. reflexivity.
Defined.

(** X3.  Running [solve_grid] again on the grid that a run of it left
    gives the same answer and leaves that grid as it is. *)
Theorem solve_grid_twice (depth : nat) (g : grid) (b : bool) (g' : grid) :
  wf g → solve_grid depth g = Ok (b, g') → solve_grid depth g' = Ok (b, g').
Proof.
  intros Hwf Hrun.
  destruct (solve_grid_sound depth g b g' Hrun Hwf) as (Hwf' & Hfalse & Htrue & _).
  destruct b.
  - destruct (Htrue eq_refl) as [Hfull _]. destruct depth as [|depth]; [done|].
    rewrite solve_grid_unfold, find_empty_None by done. done.
  - pose proof (Hfalse eq_refl) as ->. done.
Qed.

Lemma solve_grid_twice_witness :
  solve_grid 82 sample_solution = Ok (true, sample_solution).
Proof.
  apply (solve_grid_twice 82 zeros true sample_solution); [apply wf_zeros|].
  vm_compute. reflexivity.
Defined.

(** X4.  The completion that [solve_grid] leaves is the first one in
    row-major order: it comes no later than any solved grid that keeps
    the filled cells of the input. *)
Theorem solve_grid_least_completion (depth : nat) (g s s' : grid) :
  wf g → solve_grid depth g = Ok (true, s) →
  wf s' → solved s' → extends g s' → lex_le s s'.
Proof. intros Hwf Hrun. by apply (solve_grid_least depth g). Qed.

Lemma solve_grid_least_completion_witness : lex_le sample_solution other_solution.
Proof.
  apply (solve_grid_least_completion 82 zeros sample_solution other_solution).
  - apply wf_zeros.
  - vm_compute. reflexivity.
  - apply other_solution_solved.
  - apply other_solution_solved.
  - intros r c _ _ Hnz. by rewrite cell_zeros in Hnz.
Defined.

(** X5.  Started on a 9x9 grid of cells 0..9 that satisfies the puzzle
    invariant and has an empty cell, [fill_grid] returns when it may
    recurse once for each empty cell and once more; it answers true
    exactly when the grid has a completion, whatever the shuffles; after
    a true answer the grid is a solved grid that keeps the filled cells
    of the input, and after a false answer it is as it was. *)
Theorem fill_grid_decides (R : rng) (depth : nat) (g : grid) (t : nat) :
  wf g → valid g → in_range g → ¬ full g → count_zeros g < depth →
  ∃ b g' t',
    fill_grid R depth g t = Ok (b, g', t') ∧
    (b = true ↔ has_completion g) ∧
    (b = true → wf g' ∧ solved g' ∧ extends g g') ∧
    (b = false → g' = g).
Proof.
  intros Hwf Hvalid Hrange Hnotfull Hdepth.
  destruct (fill_grid_total R depth g t Hwf Hnotfull Hdepth) as [[[b g'] t'] Hrun].
  destruct (fill_grid_sound R depth g t b g' t' Hrun Hwf Hnotfull)
    as (Hwf' & Hfalse & Htrue & Hinv).
  destruct (Hinv Hvalid Hrange) as [Hvalid' Hrange'].
  assert (b = true → wf g' ∧ solved g' ∧ extends g g') as Hsolved.
  { intros Hb. destruct (Htrue Hb) as [Hfull Hext]. split_and!; [done| |done].
    by apply solved_intro. }
  exists b, g', t'. split_and!; [done| |done|done]. split.
  - intros Hb. exists g'. by apply Hsolved.
  - intros Hcompl. destruct b; [done|].
    by destruct (fill_grid_complete R depth g t g' t' Hrun Hwf Hnotfull).
Qed.

Lemma fill_grid_decides_witness :
  ∃ b g' t',
    fill_grid rng_low 3 (upd (upd sample_solution 0 0 0) 8 8 0) 0 = Ok (b, g', t') ∧
    (b = true ↔ has_completion (upd (upd sample_solution 0 0 0) 8 8 0)) ∧
    (b = true → wf g' ∧ solved g' ∧ extends (upd (upd sample_solution 0 0 0) 8 8 0) g') ∧
    (b = false → g' = upd (upd sample_solution 0 0 0) 8 8 0).
Proof.
  destruct sample_solution_solved as [Hwf Hsolved].
  assert (has_completion (upd (upd sample_solution 0 0 0) 8 8 0)) as Hcompl.
  { apply has_completion_clear; [by apply wf_upd|lia|lia|].
    apply has_completion_clear; [done|lia|lia|]. by apply solved_completion. }
  apply (fill_grid_decides rng_low 3 (upd (upd sample_solution 0 0 0) 8 8 0) 0).
  - by do 2 apply wf_upd.
  - apply has_completion_valid, Hcompl.
  - apply has_completion_valid, Hcompl.
  - intros Hfull. by apply (Hfull 0 0); [lia|lia|].
  - vm_compute. lia.
Defined.

(** X6.  Started on the all-zero grid with a recursion budget of at
    least 82, [fill_grid] answers true and leaves a solved grid,
    whatever the shuffles are. *)
Theorem fill_grid_empty_succeeds (R : rng) (depth t : nat) :
  82 ≤ depth →
  ∃ g' t', fill_grid R depth zeros t = Ok (true, g', t') ∧ wf g' ∧ solved g'.
Proof.
  intros Hdepth.
  destruct (fill_grid_total R depth zeros t wf_zeros zeros_not_full)
    as [[[b g'] t'] Hrun]; [rewrite count_zeros_zeros; lia|].
  destruct b.
  - destruct (fill_grid_sound R depth zeros t true g' t' Hrun wf_zeros zeros_not_full)
      as (Hwf' & _ & Htrue & Hinv).
    destruct (Htrue eq_refl) as [Hfull _].
    destruct (Hinv valid_zeros in_range_zeros) as [Hvalid Hrange].
    exists g', t'. split_and!; [done..|]. by apply solved_intro.
  - destruct (fill_grid_complete R depth zeros t g' t' Hrun wf_zeros zeros_not_full).
    apply zeros_completion.
Qed.

Lemma fill_grid_empty_succeeds_witness :
  ∃ g' t', fill_grid rng_low 82 zeros 7 = Ok (true, g', t') ∧ wf g' ∧ solved g'.
Proof. apply (fill_grid_empty_succeeds rng_low 82 7). lia. Defined.

(** X7.  Whatever the random source and the difficulty,
    [generate_sudoku] returns a solution that is a solved grid and a
    puzzle that satisfies the puzzle invariant, has the solution as a
    completion, and has at most as many empty cells as the target of
    the difficulty, which is at most 60. *)
Theorem generate_sudoku_session (R : rng) (depth fuel : nat)
    (difficulty : string) (w : world) :
  82 ≤ depth → max_attempts ≤ fuel →
  ∃ data w' gp gs,
    generate_sudoku R depth fuel difficulty w = Ok (data, w') ∧
    heap w' !! puzzle data = Some gp ∧
    heap w' !! solution data = Some gs ∧
    wf gs ∧ solved gs ∧
    wf gp ∧ valid gp ∧ extends gp gs ∧
    (Z.of_nat (count_zeros gp) ≤ removal_target difficulty)%Z ∧
    (40 ≤ removal_target difficulty ≤ 60)%Z.
Proof.
  intros Hdepth Hfuel.
  destruct (generate_sudoku_spec R depth fuel difficulty w Hdepth Hfuel)
    as (filled & gs & t & count' & attempts' & w' & gp & Hfill & _ & Hgen & Hpost &
        Hs & Hp & Hwfp & Hext & Hzeros & _).
  assert (40 ≤ removal_target difficulty ≤ 60)%Z as Htarget.
  { unfold removal_target.
    destruct (String.eqb difficulty "Easy"), (String.eqb difficulty "Medium"); lia. }
  destruct Hpost as (Hwfs & _ & Htrue & Hinv).
  destruct (Hinv valid_zeros in_range_zeros) as [Hvalid Hrange].
  assert (filled = true) as ->.
  { destruct filled; [done|].
    destruct (fill_grid_complete R depth zeros (draws w) gs t Hfill wf_zeros zeros_not_full).
    apply zeros_completion. }
  destruct (Htrue eq_refl) as [Hfull _].
  exists (GameData (S (length (heap w))) (length (heap w))), w', gp, gs.
  cbn [puzzle solution]. split_and!; [done|done|done|done| |done| |done| |lia|lia].
  - by apply solved_intro.
  - by apply (valid_extends gp gs).
  - rewrite (count_zeros_full gs Hwfs Hfull) in Hzeros. lia.
Qed.

Lemma generate_sudoku_session_witness :
  ∃ data w' gp gs,
    generate_sudoku rng_low 82 810 "Easy" fresh_world = Ok (data, w') ∧
    heap w' !! puzzle data = Some gp ∧
    heap w' !! solution data = Some gs ∧
    wf gs ∧ solved gs ∧
    wf gp ∧ valid gp ∧ extends gp gs ∧
    (Z.of_nat (count_zeros gp) ≤ removal_target "Easy")%Z ∧
    (40 ≤ removal_target "Easy" ≤ 60)%Z.
Proof.
  apply (generate_sudoku_session rng_low 82 810 "Easy" fresh_world);
    [lia|unfold max_attempts; lia].
Defined.

(** X8.  On a 9x9 array that has a completion the solvability check of
    [remove_numbers] never refuses a removal and the backup is never
    written back: the call leaves the array, the count, the attempts and
    the number of draws that the loop without the check,
    [remove_unchecked], computes. *)
Theorem remove_numbers_never_restores (R : rng) (depth fuel l : nat) (count : Z)
    (w : world) (g g' : grid) (count' : Z) (attempts' t' : nat) :
  heap w !! l = Some g → wf g → has_completion g → 82 ≤ depth → max_attempts ≤ fuel →
  remove_unchecked R fuel g count 0 (draws w) = (g', count', attempts', t') →
  ∃ w',
    remove_numbers R depth fuel l count w = Ok (count', attempts', w') ∧
    heap w' !! l = Some g' ∧ draws w' = t'.
Proof.
  intros Hl Hwf Hcompl Hdepth Hfuel Hrun.
  apply (remove_loop_unchecked R depth fuel l count 0 w g); [done..|lia|done].
Qed.

Lemma remove_numbers_never_restores_witness :
  ∃ w',
    remove_numbers rng_low 82 810 0 40 (World [sample_solution] 0) = Ok (39%Z, 810, w') ∧
    heap w' !! 0 = Some (upd sample_solution 0 0 0) ∧ draws w' = 1620.
Proof.
  apply (remove_numbers_never_restores rng_low 82 810 0 40 (World [sample_solution] 0)
           sample_solution).
  - reflexivity.
  - apply sample_solution_solved.
  - apply solved_completion; apply sample_solution_solved.
  - lia.
  - unfold max_attempts; lia.
  - vm_compute. reflexivity.
Defined.

(** X9.  On a solved 9x9 array and with a positive count,
    [remove_numbers] empties at least one cell: the first attempt is
    always kept. *)
Theorem remove_numbers_removes_one (R : rng) (depth fuel l : nat) (count : Z)
    (w : world) (g : grid) :
  heap w !! l = Some g → wf g → solved g → (0 < count)%Z →
  82 ≤ depth → max_attempts ≤ fuel →
  ∃ count' attempts' w' g',
    remove_numbers R depth fuel l count w = Ok (count', attempts', w') ∧
    heap w' !! l = Some g' ∧
    (count' < count)%Z ∧ 1 ≤ count_zeros g'.
Proof.
  intros Hl Hwf Hsolved Hcount Hdepth Hfuel.
  destruct (solved_elim g Hsolved) as (Hfull & _).
  destruct (remove_numbers_spec R depth fuel l count w g Hl Hwf Hdepth Hfuel)
    as (count' & attempts' & w' & g' & Hrun & Hl' & _ & _ & _ & Hzeros & _).
  destruct (remove_unchecked R fuel g count 0 (draws w)) as [[[g2 count2] attempts2] t2]
    eqn:Hunchecked.
  destruct (remove_loop_unchecked R depth fuel l count 0 w g g2 count2 attempts2 t2)
    as (w2 & Hrun2 & _); [done|done|by apply solved_completion|done|lia|done|].
  unfold remove_numbers in Hrun. rewrite Hrun in Hrun2. injection Hrun2 as <- <- <-.
  assert (count' < count)%Z as Hless.
  { apply (remove_unchecked_first R fuel g count (draws w) g2 count' attempts' t2);
      [done|unfold max_attempts in Hfuel; lia| |done].
    apply Hfull; apply randint_cell. }
  exists count', attempts', w', g'. split_and!; [done..|].
  rewrite (count_zeros_full g Hwf Hfull) in Hzeros. lia.
Qed.

Lemma remove_numbers_removes_one_witness :
  ∃ count' attempts' w' g',
    remove_numbers rng_low 82 810 0 60 (World [sample_solution] 0)
    = Ok (count', attempts', w') ∧
    heap w' !! 0 = Some g' ∧
    (count' < 60)%Z ∧ 1 ≤ count_zeros g'.
Proof.
  apply (remove_numbers_removes_one rng_low 82 810 0 60 (World [sample_solution] 0)
           sample_solution);
    [reflexivity|apply sample_solution_solved|apply sample_solution_solved|lia|lia|
     unfold max_attempts; lia].
Defined.

(** X10.  Whatever 9x9 array it is given, [remove_numbers] returns; it
    only empties cells of that array; every other object that was in
    the store is as it was; it makes two draws for each attempt and at
    most one new object for each attempt. *)
Theorem remove_numbers_footprint (R : rng) (depth fuel l : nat) (count : Z)
    (w : world) (g : grid) :
  heap w !! l = Some g → wf g → 82 ≤ depth → max_attempts ≤ fuel →
  ∃ count' attempts' w' g',
    remove_numbers R depth fuel l count w = Ok (count', attempts', w') ∧
    heap w' !! l = Some g' ∧ wf g' ∧
    (∀ r c, r < 9 → c < 9 → cell g' r c = 0%Z ∨ cell g' r c = cell g r c) ∧
    (∀ l', l' ≠ l → l' < length (heap w) → heap w' !! l' = heap w !! l') ∧
    draws w' = draws w + 2 * attempts' ∧
    length (heap w) ≤ length (heap w') ≤ length (heap w) + attempts'.
Proof.
  intros Hl Hwf Hdepth Hfuel.
  destruct (remove_numbers_spec R depth fuel l count w g Hl Hwf Hdepth Hfuel)
    as (count' & attempts' & w' & g' & Hrun & Hl' & Hwf' & [Hlen Hframe] & Hext & _).
  destruct (remove_loop_cost R depth fuel l count 0 w g Hl Hwf Hdepth ltac:(lia))
    as (count2 & attempts2 & w2 & Hrun2 & Hdraws & Hheap & _).
  unfold remove_numbers in Hrun. rewrite Hrun in Hrun2. injection Hrun2 as <- <- <-.
  exists count', attempts', w', g'. split_and!; [done|done|done| |done|lia|lia|lia].
  intros r c Hr Hc. destruct (decide (cell g' r c = 0%Z)) as [Hz|Hnz]; [by left|].
  right. symmetry. by apply Hext.
Qed.

Lemma remove_numbers_footprint_witness :
  ∃ count' attempts' w' g',
    remove_numbers rng_low 82 810 1 5 (World [ones; five_at_origin] 0)
    = Ok (count', attempts', w') ∧
    heap w' !! 1 = Some g' ∧ wf g' ∧
    (∀ r c, r < 9 → c < 9 → cell g' r c = 0%Z ∨ cell g' r c = cell five_at_origin r c) ∧
    (∀ l', l' ≠ 1 → l' < length (heap (World [ones; five_at_origin] 0)) →
           heap w' !! l' = heap (World [ones; five_at_origin] 0) !! l') ∧
    draws w' = draws (World [ones; five_at_origin] 0) + 2 * attempts' ∧
    length (heap (World [ones; five_at_origin] 0)) ≤ length (heap w')
    ≤ length (heap (World [ones; five_at_origin] 0)) + attempts'.
Proof.
  apply (remove_numbers_footprint rng_low 82 810 1 5 (World [ones; five_at_origin] 0)
           five_at_origin);
    [reflexivity|apply wf_five_at_origin|lia|unfold max_attempts; lia].
Defined.

(** X11.  On a 9x9 grid that satisfies the puzzle invariant, for an
    empty cell and a value other than 0, [is_safe] returns true exactly
    when the grid with the value written into the cell still satisfies
    the puzzle invariant. *)
Theorem is_safe_placement (g : grid) (r c : nat) (v : Z) :
  wf g → valid g → r < 9 → c < 9 → cell g r c = 0%Z → v ≠ 0%Z →
  is_safe g r c v = Ok true ↔ valid (upd g r c v).
Proof.
  intros Hwf Hvalid Hr Hc Hz Hv. split.
  - intros Hsafe. apply valid_upd_safe; [done..|]. by apply is_safe_true.
  - intros Hplaced. destruct (is_safe_spec g r c v Hwf Hr Hc) as (b & Hb & Hocc).
    destruct b; [done|]. destruct Hocc as [Hocc _].
    destruct (occurs_not_here g r c v) as (r' & c' & Hr' & Hc' & Hne & Hpeer & Hcell);
      [congruence|by apply Hocc|].
    destruct (Hplaced r c r' c') as [-> ->]; [done..| | |done|done].
    + by rewrite cell_upd_eq.
    + by rewrite cell_upd_eq, cell_upd_ne.
Qed.

Lemma is_safe_placement_witness :
  is_safe zeros 4 4 7 = Ok true ↔ valid (upd zeros 4 4 7).
Proof.
  apply (is_safe_placement zeros 4 4 7);
    [apply wf_zeros|apply valid_zeros|lia|lia|apply cell_zeros|lia].
Defined.

(** X12.  With an index out of bounds [is_safe] behaves as its
    left-to-right test does: a row index beyond the grid raises
    [IndexError]; a column index beyond the grid raises [IndexError]
    when the value is not in the row, and gives false, without an
    error, when the value is in the row. *)
Theorem is_safe_out_of_bounds (g : grid) (r c : nat) (v : Z) :
  wf g →
  (9 ≤ r → is_safe g r c v = Raise IndexError) ∧
  (r < 9 → 9 ≤ c → (∃ c', c' < 9 ∧ cell g r c' = v) → is_safe g r c v = Ok false) ∧
  (r < 9 → 9 ≤ c → (∀ c', c' < 9 → cell g r c' ≠ v) →
   is_safe g r c v = Raise IndexError).
Proof.
  intros Hwf. split_and!.
  - intros Hr. unfold is_safe. rewrite (lookup_ge_None_2 g r); [done|].
    destruct Hwf as [-> _]. lia.
  - intros Hr Hc Hin. unfold is_safe.
    destruct (wf_row g r Hwf Hr) as (row & Hrow & _). rewrite Hrow. cbn [of_option mbind res_bind].
    rewrite (proj2 (mem_true v row)); [done|]. by apply (elem_of_row g r row v Hwf Hr Hrow).
  - intros Hr Hc Hnot. unfold is_safe.
    destruct (wf_row g r Hwf Hr) as (row & Hrow & _). rewrite Hrow. cbn [of_option mbind res_bind].
    destruct (mem v row) eqn:Hmem.
    + apply mem_true, (elem_of_row g r row v Hwf Hr Hrow) in Hmem as (c' & Hc' & Hcell).
      by destruct (Hnot c' Hc').
    + by rewrite column_out_of_bounds.
Qed.

Lemma is_safe_out_of_bounds_witness :
  (9 ≤ 9 → is_safe five_at_origin 9 0 5 = Raise IndexError) ∧
  (0 < 9 → 9 ≤ 9 → (∃ c', c' < 9 ∧ cell five_at_origin 0 c' = 5%Z) →
   is_safe five_at_origin 0 9 5 = Ok false) ∧
  (0 < 9 → 9 ≤ 9 → (∀ c', c' < 9 → cell five_at_origin 0 c' ≠ 5%Z) →
   is_safe five_at_origin 0 9 5 = Raise IndexError).
Proof.
  destruct (is_safe_out_of_bounds five_at_origin 0 9 5 wf_five_at_origin)
    as (_ & Hin & Hout).
  destruct (is_safe_out_of_bounds five_at_origin 9 0 5 wf_five_at_origin)
    as (Hrow & _ & _).
  by split_and!.
Defined.

(** X13.  Emptying one cell of a solved grid and running [solve_grid]
    gives the solved grid back. *)
Theorem solve_grid_single_gap (depth : nat) (s : grid) (r c : nat) :
  wf s → solved s → r < 9 → c < 9 → 2 ≤ depth →
  solve_grid depth (upd s r c 0) = Ok (true, s).
Proof.
  intros Hwf Hsolved Hr Hc Hdepth.
  destruct (solved_elim s Hsolved) as (Hfull & Hvalid & Hrange).
  set (g := upd s r c 0).
  assert (wf g) as Hwfg by by apply wf_upd.
  assert (has_completion g) as Hcompl.
  { apply has_completion_clear; [done..|]. by apply solved_completion. }
  destruct (solve_grid_total depth g Hwfg) as [[b g'] Hrun].
  { unfold g. rewrite count_zeros_clear, (count_zeros_full s) by (done || by apply Hfull).
    lia. }
  rewrite Hrun. destruct b; [|by destruct (solve_grid_complete depth g g' Hrun Hwfg)].
  destruct (solve_grid_sound depth g true g' Hrun Hwfg) as (Hwf' & _ & Htrue & Hinv).
  destruct (Htrue eq_refl) as [Hfull' Hext].
  destruct (has_completion_valid g Hcompl) as [Hvalidg Hrangeg].
  destruct (Hinv Hvalidg Hrangeg) as [Hvalid' Hrange'].
  f_equal. f_equal. apply (single_gap_unique s r c g'); [done..| |done].
  by apply solved_intro.
Qed.

Lemma solve_grid_single_gap_witness :
  solve_grid 2 (upd sample_solution 4 4 0) = Ok (true, sample_solution).
Proof.
  apply (solve_grid_single_gap 2 sample_solution 4 4);
    [apply sample_solution_solved|apply sample_solution_solved|lia..].
Defined.

(** X14.  In a solved grid with one cell emptied, the only digit for
    which [is_safe] returns true at that cell is the digit that was
    there. *)
Theorem is_safe_single_gap (s : grid) (r c : nat) (v : Z) :
  wf s → solved s → r < 9 → c < 9 → digit v →
  is_safe (upd s r c 0) r c v = Ok true ↔ v = cell s r c.
Proof.
  intros Hwf Hsolved Hr Hc Hv.
  destruct (solved_elim s Hsolved) as (Hfull & Hvalid & Hrange).
  assert (wf (upd s r c 0)) as Hwfg by by apply wf_upd.
  destruct (is_safe_spec (upd s r c 0) r c v Hwfg Hr Hc) as (b & Hb & Hocc).
  rewrite Hb. split.
  - intros [= ->]. destruct (decide (v = cell s r c)) as [|Hne]; [done|].
    destruct (solved_row_has s r v Hsolved Hr Hv) as (c' & Hc' & Hcell).
    assert (c' ≠ c) as Hcne by congruence.
    destruct Hocc as [_ Hocc]. discriminate Hocc.
    exists r, c'. split_and!; [done|done|by left|].
    rewrite cell_upd_ne by (done || congruence). done.
  - intros ->. destruct b; [done|]. destruct Hocc as [Hocc _].
    destruct (Hocc eq_refl) as (r' & c' & Hr' & Hc' & Hpeer & Hcell).
    rewrite cell_upd in Hcell by done. case_decide as Heq.
    + by destruct (Hfull r c).
    + destruct (Hvalid r c r' c') as [-> ->]; [done..|by apply Hfull|done|done|].
      by destruct Heq.
Qed.

Lemma is_safe_single_gap_witness :
  is_safe (upd sample_solution 4 4 0) 4 4 9 = Ok true ↔ 9%Z = cell sample_solution 4 4.
Proof.
  apply (is_safe_single_gap sample_solution 4 4 9);
    [apply sample_solution_solved|apply sample_solution_solved|lia|lia|].
  unfold digit. lia.
Defined.
